(** * Discord IPC client of the Apple Music bridge

    A shallow embedding of [discord/client.go] (socket discovery, framing,
    handshake, activity encoding, nonce) and of [main.go] (the [Bridge]
    wrappers, the reading of the player, the cover search, the polling
    loop), with the properties of the design document checked against
    them, and further properties of the code.

    The Go methods are written as programs over a small set of primitive
    actions (environment lookups, socket calls, field reads and writes of
    the one shared [Client] and [Bridge], the mutex).  A program is run
    sequentially against a machine state, or stepped one action at a time
    by several goroutines. *)

From Stdlib Require Import ZArith Lia.
From Stdlib Require Import Strings.Byte Strings.Ascii.
From stdpp Require Import base numbers option list strings pretty gmap.

Open Scope Z_scope.

(** ** Bytes and fixed-width integers *)

(** Go's [byte(v)]: the low eight bits. *)
Definition byte_of_Z (z : Z) : byte :=
  default x00 (Byte.of_N (Z.to_N (z mod 256))).

Definition byte_to_Z (b : byte) : Z := Z.of_N (Byte.to_N b).

(** Conversions [uint32(v)], [uint64(v)] and the wrap-around of [int64]. *)
Definition uint32 (z : Z) : Z := z mod 2 ^ 32.
Definition uint64 (z : Z) : Z := z mod 2 ^ 64.
Definition int64 (z : Z) : Z := (z + 2 ^ 63) mod 2 ^ 64 - 2 ^ 63.

(** [binary.LittleEndian.PutUint32(b, v)] on a four-byte slice. *)
Definition PutUint32 (v : Z) : list byte :=
  [ byte_of_Z v;
    byte_of_Z (Z.shiftr v 8);
    byte_of_Z (Z.shiftr v 16);
    byte_of_Z (Z.shiftr v 24) ].

(** [binary.LittleEndian.Uint32(b)]; Go panics on a slice shorter than
    four bytes, [receive] always passes [header[4:8]]. *)
Definition Uint32 (b : list byte) : Z :=
  match b with
  | b0 :: b1 :: b2 :: b3 :: _ =>
      Z.lor (Z.lor (Z.lor (byte_to_Z b0)
                          (Z.shiftl (byte_to_Z b1) 8))
                   (Z.shiftl (byte_to_Z b2) 16))
            (Z.shiftl (byte_to_Z b3) 24)
  | _ => 0
  end.

(** [make([]byte, n)] and the effect of [Read] on such a buffer: the bytes
    read overwrite a prefix, the rest keeps its zero value. *)
Definition make_bytes (n : nat) : list byte := replicate n x00.

Definition fill (n : nat) (got : list byte) : list byte :=
  take n got ++ make_bytes (n - length got).

(** ** Instants

    [time.Time] reduced to what [UnixMilli] reads: seconds since the epoch
    and the nanoseconds within the second. *)
Record Time := { unixSec : Z; nsec : Z }.

(** [t.UnixMilli()], an [int64]. *)
Definition UnixMilli (t : Time) : Z :=
  int64 (unixSec t * 1000 + Z.quot (nsec t) 1000000).

(** ** The activity and its wire structures *)

Record Button := { Label : string; Url : string }.

Record Timestamps := { Start : option Time; End_ : option Time }.

(** [Timestamps *Timestamps] is [None] for nil.  [Buttons] holds non-nil
    pointers (a nil entry makes the Go loop panic). *)
Record Activity := {
  Type_ : Z;
  Details : string;
  State : string;
  LargeImage : string;
  LargeText : string;
  SmallImage : string;
  SmallText : string;
  Timestamps_ : option Timestamps;
  Buttons : list Button
}.

Definition ActivityTypePlaying : Z := 0.
Definition ActivityTypeStreaming : Z := 1.
Definition ActivityTypeListening : Z := 2.
Definition ActivityTypeWatching : Z := 3.
Definition ActivityTypeCompeting : Z := 5.

Record payloadAssets := {
  pLargeImage : string;
  pLargeText : string;
  pSmallImage : string;
  pSmallText : string
}.

Record payloadTimestamps := { pStart : option Z; pEnd : option Z }.

Record payloadButton := { pLabel : string; pUrl : string }.

Record payloadActivity := {
  pType : Z;
  pDetails : string;
  pState : string;
  pAssets : payloadAssets;
  pTimestamps : option payloadTimestamps;
  pButtons : list payloadButton
}.

Record handshake := { V : string; ClientId : string }.

Record args := { Pid : Z; Activity_ : option payloadActivity }.

Record frame := { Cmd : string; Args : args; Nonce : string }.

(** The mapping at the head of [SetActivity] (lines 155 to 184). *)
Definition payload_timestamps (ts : option Timestamps) : option payloadTimestamps :=
  match ts with
  | None => None
  | Some t =>
      Some {| pStart := (fun s => uint64 (UnixMilli s)) <$> Start t;
              pEnd := (fun e => uint64 (UnixMilli e)) <$> End_ t |}
  end.

Definition payload_of (activity : Activity) : payloadActivity :=
  {| pType := Type_ activity;
     pDetails := Details activity;
     pState := State activity;
     pAssets := {| pLargeImage := LargeImage activity;
                   pLargeText := LargeText activity;
                   pSmallImage := SmallImage activity;
                   pSmallText := SmallText activity |};
     pTimestamps := payload_timestamps (Timestamps_ activity);
     pButtons := (fun btn => {| pLabel := Label btn; pUrl := Url btn |})
                   <$> Buttons activity |}.

(** ** JSON documents and the struct tags

    [encoding/json] walks a struct in field order.  A field tagged
    [omitempty] is left out when its value is empty, and empty means:
    false, 0, a nil pointer or interface, or an array, slice, map or string
    of length zero.  A struct value is never empty. *)
#[warnings="-register-all"]
Inductive json :=
| JNull
| JNum (n : Z)
| JStr (s : string)
| JArr (xs : list json)
| JObj (fields : list (string * json)).

Definition member := (string * json)%type.

Definition field_string_omitempty (key v : string) : list member :=
  if decide (v = "") then [] else [(key, JStr v)].

Definition field_ptr_omitempty {A} (key : string) (enc : A -> json)
    (v : option A) : list member :=
  match v with None => [] | Some x => [(key, enc x)] end.

Definition field_slice_omitempty {A} (key : string) (enc : A -> json)
    (v : list A) : list member :=
  match v with [] => [] | _ => [(key, JArr (enc <$> v))] end.

Definition marshal_payloadAssets (a : payloadAssets) : json :=
  JObj (field_string_omitempty "large_image" (pLargeImage a)
     ++ field_string_omitempty "large_text" (pLargeText a)
     ++ field_string_omitempty "small_image" (pSmallImage a)
     ++ field_string_omitempty "small_text" (pSmallText a)).

Definition marshal_payloadTimestamps (t : payloadTimestamps) : json :=
  JObj (field_ptr_omitempty "start" JNum (pStart t)
     ++ field_ptr_omitempty "end" JNum (pEnd t)).

Definition marshal_payloadButton (b : payloadButton) : json :=
  JObj (field_string_omitempty "label" (pLabel b)
     ++ field_string_omitempty "url" (pUrl b)).

(** [Assets] is a struct value: its [omitempty] never applies. *)
Definition marshal_payloadActivity (pa : payloadActivity) : json :=
  JObj ([("type", JNum (pType pa))]
     ++ field_string_omitempty "details" (pDetails pa)
     ++ field_string_omitempty "state" (pState pa)
     ++ [("assets", marshal_payloadAssets (pAssets pa))]
     ++ field_ptr_omitempty "timestamps" marshal_payloadTimestamps (pTimestamps pa)
     ++ field_slice_omitempty "buttons" marshal_payloadButton (pButtons pa)).

Definition marshal_handshake (h : handshake) : json :=
  JObj [("v", JStr (V h)); ("client_id", JStr (ClientId h))].

Definition marshal_args (a : args) : json :=
  JObj [("pid", JNum (Pid a));
        ("activity", match Activity_ a with
                     | None => JNull
                     | Some pa => marshal_payloadActivity pa
                     end)].

Definition marshal_frame (f : frame) : json :=
  JObj [("cmd", JStr (Cmd f)); ("args", marshal_args (Args f));
        ("nonce", JStr (Nonce f))].

(** Reading a document back: the value under a key of an object, and the
    keys an object carries. *)
Definition members (j : json) : list member :=
  match j with JObj fs => fs | _ => [] end.

Definition json_get (key : string) (j : json) : option json :=
  snd <$> List.find (fun kv => String.eqb (fst kv) key) (members j).

Definition json_keys (j : json) : list string := fst <$> members j.

(** The activity object [SetActivity] sends for a description. *)
Definition encode (activity : Activity) : json :=
  marshal_payloadActivity (payload_of activity).

(** ** Text formatting *)

(** [fmt.Sprintf("%x", b)] for a byte slice: two lower-case digits a byte. *)
Definition ldigits : string := "0123456789abcdef".

Definition digit_at (i : Z) : ascii :=
  default "?"%char (String.get (Z.to_nat i) ldigits).

Definition hex_byte (c : byte) : string :=
  String (digit_at (Z.shiftr (byte_to_Z c) 4))
    (String (digit_at (Z.land (byte_to_Z c) 15)) EmptyString).

Definition hex (b : list byte) : string :=
  foldr (fun c acc => hex_byte c +:+ acc) "" b.

(** The body of [nonce] after [rand.Read(buf)]. *)
Definition nonce_text (buf : list byte) : string :=
  let b6 := default x00 (buf !! 6%nat) in
  let buf := <[6%nat := byte_of_Z (Z.lor (Z.land (byte_to_Z b6) 15) 64)]> buf in
  hex (take 4 buf) +:+ "-" +:+
  hex (take 2 (drop 4 buf)) +:+ "-" +:+
  hex (take 2 (drop 6 buf)) +:+ "-" +:+
  hex (take 2 (drop 8 buf)) +:+ "-" +:+
  hex (drop 10 buf).

(** [fmt.Sprintf("%s/discord-ipc-%d", tmpDir, i)]. *)
Definition socket_path (tmpDir : string) (i : nat) : string :=
  tmpDir +:+ "/discord-ipc-" +:+ pretty i.

(** ** Errors *)

Inductive error :=
| ErrSocketNotFound                       (* "Discord IPC socket not found" *)
| ErrNotLoggedIn                          (* "not logged in" *)
| ErrConn                                 (* what Read or Write returned *)
| ErrWrap (msg : string) (cause : error). (* fmt.Errorf(msg + ": %w", cause) *)

(** ** The machine

    A connection is a mock endpoint: [rx] scripts what successive [Read]
    calls find (a segment of bytes, or a failure; the end of the script is
    the end of the stream), [wr_left] how many [Write] calls succeed before
    the peer is gone, [sent] logs the writes. *)
Inductive RxEvent := Chunk (data : list byte) | RxFail.

Record Conn := {
  rx : list RxEvent;
  wr_left : option nat;
  sent : list (list byte);
  closed : bool
}.

Inductive PlayerState := StateNotRunning | StatePaused | StatePlaying.

Record Track := {
  Name : string;
  Artist : string;
  Album : string;
  Duration : Z;        (* float64, kept as its bits *)
  PlayerPosition : Z   (* float64, kept as its bits *)
}.

(** What a run cannot change: the process environment, the unix sockets
    that accept a connection (and what their peer will do), the random
    source, the process id, the text [json.Marshal] gives a document, the
    outcome of the artwork search and the clock. *)
Record Env := {
  environ : gmap string string;
  sockets : gmap string Conn;
  entropy : nat -> byte;
  pid : Z;
  json_text : json -> list byte;
  fetch : string -> string -> option string;
  end_time : Track -> Time
}.

Record Client := { clientID : string; conn : option nat; logged : bool }.

Definition NewClient (clientID : string) : Client :=
  {| clientID := clientID; conn := None; logged := false |}.

(** [Bridge] without [lastTrack] and [lastState], which only the polling
    loop reads. [mu] tells whether the mutex is held. *)
Record Bridge := {
  cache : gmap string string;
  connected : bool;
  mu : bool
}.

Record Machine := {
  world : Env;
  rand_pos : nat;
  conns : list Conn;
  client : Client;
  bridge : Bridge
}.

Definition set_rand_pos (n : nat) (m : Machine) : Machine :=
  {| world := world m; rand_pos := n; conns := conns m;
     client := client m; bridge := bridge m |}.

Definition set_conns (cs : list Conn) (m : Machine) : Machine :=
  {| world := world m; rand_pos := rand_pos m; conns := cs;
     client := client m; bridge := bridge m |}.

Definition set_client (c : Client) (m : Machine) : Machine :=
  {| world := world m; rand_pos := rand_pos m; conns := conns m;
     client := c; bridge := bridge m |}.

Definition set_bridge (b : Bridge) (m : Machine) : Machine :=
  {| world := world m; rand_pos := rand_pos m; conns := conns m;
     client := client m; bridge := b |}.

Definition with_conn (v : option nat) (c : Client) : Client :=
  {| clientID := clientID c; conn := v; logged := logged c |}.

Definition with_logged (v : bool) (c : Client) : Client :=
  {| clientID := clientID c; conn := conn c; logged := v |}.

Definition with_cache (v : gmap string string) (b : Bridge) : Bridge :=
  {| cache := v; connected := connected b; mu := mu b |}.

Definition with_connected (v : bool) (b : Bridge) : Bridge :=
  {| cache := cache b; connected := v; mu := mu b |}.

Definition with_mu (v : bool) (b : Bridge) : Bridge :=
  {| cache := cache b; connected := connected b; mu := v |}.

(** [conn.Read(buf)] with [len(buf) = n]: at most [n] bytes of the next
    segment, the rest of the segment stays for the next call.  A read into
    an empty buffer returns at once. *)
Definition conn_read (n : nat) (c : Conn) : option (list byte) * Conn :=
  if closed c then (None, c) else
  match n with
  | O => (Some [], c)
  | _ =>
      match rx c with
      | [] => (None, c)
      | RxFail :: rest =>
          (None, {| rx := rest; wr_left := wr_left c; sent := sent c;
                    closed := closed c |})
      | Chunk [] :: rest =>
          (None, {| rx := rest; wr_left := wr_left c; sent := sent c;
                    closed := closed c |})
      | Chunk data :: rest =>
          (Some (take n data),
           {| rx := if decide (n < length data)%nat
                    then Chunk (drop n data) :: rest else rest;
              wr_left := wr_left c; sent := sent c; closed := closed c |})
      end
  end.

(** [conn.Write(p)]: all of [p] or an error. *)
Definition conn_write (p : list byte) (c : Conn) : option error * Conn :=
  if closed c then (Some ErrConn, c) else
  match wr_left c with
  | Some O => (Some ErrConn, c)
  | Some (S k) =>
      (None, {| rx := rx c; wr_left := Some k; sent := sent c ++ [p];
                closed := closed c |})
  | None =>
      (None, {| rx := rx c; wr_left := None; sent := sent c ++ [p];
                closed := closed c |})
  end.

Definition conn_close (c : Conn) : Conn :=
  {| rx := rx c; wr_left := wr_left c; sent := sent c; closed := true |}.

(** What the outside can observe of a run. *)
Inductive Event :=
| EvDial (path : string) (ok : bool)
| EvWrite (c : nat) (p : list byte) (ok : bool)
| EvRead (c : nat) (n : nat) (got : option (list byte))
| EvClose (c : nat)
| EvLock
| EvUnlock.

(** The primitive actions of the Go code, indexed by what they return. *)
Inductive Action : Type -> Type :=
| Getenv (name : string) : Action string
| Getpid : Action Z
| RandRead (n : nat) : Action (list byte)
| Marshal (j : json) : Action (list byte)
| Dial (path : string) : Action (option nat)
| ConnWrite (c : option nat) (p : list byte) : Action (option error)
| ConnRead (c : option nat) (n : nat) : Action (option (list byte))
| ConnClose (c : option nat) : Action unit
| GetClientID : Action string
| GetConn : Action (option nat)
| SetConn (v : option nat) : Action unit
| GetLogged : Action bool
| SetLogged (v : bool) : Action unit
| GetConnected : Action bool
| SetConnected (v : bool) : Action unit
| CacheGet (key : string) : Action (option string)
| CacheSet (key url : string) : Action unit
| FetchArtworkURL (artist album : string) : Action (option string)
| EndTime (track : Track) : Action Time
| Log (msg : string) : Action unit
| Lock : Action unit
| Unlock : Action unit.

Inductive Prog (A : Type) : Type :=
| Ret (a : A)
| Act {R : Type} (act : Action R) (k : R -> Prog A).

Arguments Ret {A} a.
Arguments Act {A R} act k.

Fixpoint bind {A B : Type} (p : Prog A) (k : A -> Prog B) : Prog B :=
  match p with
  | Ret a => k a
  | Act act c => Act act (fun r => bind (c r) k)
  end.

Definition act {R : Type} (a : Action R) : Prog R := Act a Ret.

#[export] Instance Prog_ret : MRet Prog := @Ret.
#[export] Instance Prog_bind : MBind Prog := fun A B k p => bind p k.

(** One action against the machine: the value the Go call returns, the
    machine afterwards and what was observable.  [None]: the goroutine does
    not get past the call (a method called on a nil [net.Conn] panics,
    [Lock] on a held mutex waits, [Unlock] of a free mutex is fatal). *)
Definition perform {R : Type} (a : Action R) (m : Machine)
    : option (R * Machine * list Event) :=
  match a in Action R return option (R * Machine * list Event) with
  | Getenv name => Some (default "" (environ (world m) !! name), m, [])
  | Getpid => Some (pid (world m), m, [])
  | RandRead n =>
      Some (entropy (world m) <$> seq (rand_pos m) n,
            set_rand_pos (rand_pos m + n)%nat m, [])
  | Marshal j => Some (json_text (world m) j, m, [])
  | Dial path =>
      match sockets (world m) !! path with
      | Some c =>
          Some (Some (length (conns m)), set_conns (conns m ++ [c]) m,
                [EvDial path true])
      | None => Some (None, m, [EvDial path false])
      end
  | ConnWrite None _ => None
  | ConnWrite (Some id) p =>
      match conns m !! id with
      | None => Some (Some ErrConn, m, [EvWrite id p false])
      | Some c =>
          let '(e, c') := conn_write p c in
          Some (e, set_conns (<[id := c']> (conns m)) m,
                [EvWrite id p (match e with None => true | Some _ => false end)])
      end
  | ConnRead None _ => None
  | ConnRead (Some id) n =>
      match conns m !! id with
      | None => Some (None, m, [EvRead id n None])
      | Some c =>
          let '(got, c') := conn_read n c in
          Some (got, set_conns (<[id := c']> (conns m)) m, [EvRead id n got])
      end
  | ConnClose None => None
  | ConnClose (Some id) =>
      match conns m !! id with
      | None => Some (tt, m, [EvClose id])
      | Some c =>
          Some (tt, set_conns (<[id := conn_close c]> (conns m)) m,
                [EvClose id])
      end
  | GetClientID => Some (clientID (client m), m, [])
  | GetConn => Some (conn (client m), m, [])
  | SetConn v => Some (tt, set_client (with_conn v (client m)) m, [])
  | GetLogged => Some (logged (client m), m, [])
  | SetLogged v => Some (tt, set_client (with_logged v (client m)) m, [])
  | GetConnected => Some (connected (bridge m), m, [])
  | SetConnected v =>
      Some (tt, set_bridge (with_connected v (bridge m)) m, [])
  | CacheGet key => Some (cache (bridge m) !! key, m, [])
  | CacheSet key url =>
      Some (tt, set_bridge (with_cache (<[key := url]> (cache (bridge m)))
                              (bridge m)) m, [])
  | FetchArtworkURL artist album => Some (fetch (world m) artist album, m, [])
  | EndTime track => Some (end_time (world m) track, m, [])
  | Log _ => Some (tt, m, [])
  | Lock =>
      if mu (bridge m) then None
      else Some (tt, set_bridge (with_mu true (bridge m)) m, [EvLock])
  | Unlock =>
      if mu (bridge m)
      then Some (tt, set_bridge (with_mu false (bridge m)) m, [EvUnlock])
      else None
  end.

(** A call run to its return by one goroutine alone. *)
Fixpoint run {A : Type} (p : Prog A) (m : Machine)
    : option (A * Machine * list Event) :=
  match p with
  | Ret a => Some (a, m, [])
  | Act a k =>
      match perform a m with
      | None => None
      | Some (r, m', evs) =>
          match run (k r) m' with
          | None => None
          | Some (x, m'', evs') => Some (x, m'', evs ++ evs')
          end
      end
  end.

(** ** discord/client.go *)

(** [send]: header, then payload, as two writes. *)
Definition send (opcode : Z) (payload : list byte) : Prog (option error) :=
  let header := PutUint32 opcode ++ PutUint32 (uint32 (Z.of_nat (length payload))) in
  c ← act GetConn;
  err ← act (ConnWrite c header);
  match err with
  | Some e => Ret (Some e)
  | None =>
      c ← act GetConn;
      err ← act (ConnWrite c payload);
      match err with
      | Some e => Ret (Some e)
      | None => Ret None
      end
  end.

(** [receive]: one [Read] into an 8-byte header, one [Read] into a buffer
    of the announced length; the counts [Read] returns are dropped. *)
Definition receive : Prog (list byte + error) :=
  c ← act GetConn;
  r ← act (ConnRead c 8);
  match r with
  | None => Ret (inr ErrConn)
  | Some got =>
      let header := fill 8 got in
      let length := Uint32 (take 4 (drop 4 header)) in
      c ← act GetConn;
      r ← act (ConnRead c (Z.to_nat length));
      match r with
      | None => Ret (inr ErrConn)
      | Some got => Ret (inl (fill (Z.to_nat length) got))
      end
  end.

Definition nonce : Prog string :=
  buf ← act (RandRead 16);
  Ret (nonce_text buf).

(** The inner loop of [openSocket]: its [n] iterations from index [i] on,
    falling through to [next] when no index connects. *)
Fixpoint dial_indices (tmpDir : string) (n i : nat) (next : Prog (nat + error))
    : Prog (nat + error) :=
  match n with
  | O => next
  | S n' =>
      r ← act (Dial (socket_path tmpDir i));
      match r with
      | Some c => Ret (inl c)
      | None => dial_indices tmpDir n' (S i) next
      end
  end.

(** The outer loop over [tmpDirs]. *)
Fixpoint dial_dirs (tmpDirs : list string) : Prog (nat + error) :=
  match tmpDirs with
  | [] => Ret (inr ErrSocketNotFound)
  | tmpDir :: rest =>
      if decide (tmpDir = "") then dial_dirs rest
      else dial_indices tmpDir 10 0 (dial_dirs rest)
  end.

Definition openSocket : Prog (nat + error) :=
  d1 ← act (Getenv "XDG_RUNTIME_DIR");
  d2 ← act (Getenv "TMPDIR");
  d3 ← act (Getenv "TMP");
  d4 ← act (Getenv "TEMP");
  dial_dirs [d1; d2; d3; d4; "/tmp"].

(** [json.Marshal] cannot fail on these structs, so the [err != nil]
    branches after it are not taken. *)
Definition Login : Prog (option error) :=
  l ← act GetLogged;
  if l : bool then Ret None else
  r ← openSocket;
  match r with
  | inr e => Ret (Some (ErrWrap "failed to connect to Discord" e))
  | inl c =>
      act (SetConn (Some c));;
      id ← act GetClientID;
      payload ← act (Marshal (marshal_handshake {| V := "1"; ClientId := id |}));
      err ← send 0 payload;
      match err with
      | Some e => Ret (Some e)
      | None =>
          r ← receive;
          match r with
          | inr e => Ret (Some (ErrWrap "handshake failed" e))
          | inl _ => act (SetLogged true);; Ret None
          end
      end
  end.

Definition Logout : Prog unit :=
  c ← act GetConn;
  match c with
  | Some _ =>
      c ← act GetConn;
      act (ConnClose c);;
      act (SetConn None)
  | None => Ret tt
  end;;
  act (SetLogged false).

Definition SetActivity (activity : Activity) : Prog (option error) :=
  l ← act GetLogged;
  if negb l then Ret (Some ErrNotLoggedIn) else
  let pa := payload_of activity in
  p ← act Getpid;
  n ← nonce;
  payload ← act (Marshal (marshal_frame
    {| Cmd := "SET_ACTIVITY";
       Args := {| Pid := p; Activity_ := Some pa |};
       Nonce := n |}));
  send 1 payload.

Definition ClearActivity : Prog (option error) :=
  l ← act GetLogged;
  if negb l then Ret None else
  p ← act Getpid;
  n ← nonce;
  payload ← act (Marshal (marshal_frame
    {| Cmd := "SET_ACTIVITY";
       Args := {| Pid := p; Activity_ := None |};
       Nonce := n |}));
  send 1 payload.

(** ** main.go: the Bridge *)

(** [b.mu.Lock(); defer b.mu.Unlock()] around a method body. *)
Definition with_lock {A : Type} (body : Prog A) : Prog A :=
  act Lock;;
  r ← body;
  act Unlock;;
  Ret r.

Definition Connect_body : Prog (option error) :=
  c ← act GetConnected;
  if c : bool then Ret None else
  err ← Login;
  match err with
  | Some e => Ret (Some (ErrWrap "failed to connect to Discord" e))
  | None =>
      act (SetConnected true);;
      act (Log "Connected to Discord RPC");;
      Ret None
  end.

Definition Connect : Prog (option error) := with_lock Connect_body.

Definition Disconnect_body : Prog unit :=
  c ← act GetConnected;
  if negb c then Ret tt else
  Logout;;
  act (SetConnected false);;
  act (Log "Disconnected from Discord RPC").

Definition Disconnect : Prog unit := with_lock Disconnect_body.

Definition ClearPresence_body : Prog unit :=
  c ← act GetConnected;
  if negb c then Ret tt else
  ClearActivity;;
  act (Log "Cleared Discord presence").

Definition ClearPresence : Prog unit := with_lock ClearPresence_body.

(** [cacheKey]. *)
Definition cacheKey (artist album : string) : string :=
  artist +:+ "|" +:+ album.

(** The cache lookup and, on a miss, the search; [""] when both fail. *)
Definition artwork_of (track : Track) : Prog string :=
  cached ← act (CacheGet (cacheKey (Artist track) (Album track)));
  match cached with
  | Some cachedURL => Ret cachedURL
  | None =>
      act (Log "Fetching artwork");;
      r ← act (FetchArtworkURL (Artist track) (Album track));
      match r with
      | Some url =>
          act (CacheSet (cacheKey (Artist track) (Album track)) url);;
          act (Log "Cached artwork");;
          Ret url
      | None => act (Log "Artwork fetch failed");; Ret ""
      end
  end.

(** [track] is a non-nil pointer; [state] is not used by the body. *)
Definition UpdatePresence_body (track : Track) (state : PlayerState)
    : Prog unit :=
  c ← act GetConnected;
  if negb c then Ret tt else
  artworkURL ← artwork_of track;
  endTime ← act (EndTime track);
  let activity :=
    {| Type_ := ActivityTypeListening;
       Details := Name track;
       State := "by " +:+ Artist track;
       LargeImage := artworkURL;
       LargeText := Album track;
       SmallImage := "";
       SmallText := "";
       Timestamps_ := Some {| Start := None; End_ := Some endTime |};
       Buttons := [] |} in
  err ← SetActivity activity;
  match err with
  | Some _ => act (Log "Failed to update Discord presence")
  | None =>
      act (Log "Now playing");;
      if decide (artworkURL = "") then Ret tt else act (Log "Artwork URL")
  end.

Definition UpdatePresence (track : Track) (state : PlayerState) : Prog unit :=
  with_lock (UpdatePresence_body track state).

(** ** Goroutines

    Several goroutines share the machine; a step performs the next action
    of one of them.  A goroutine whose next action cannot be performed
    (it waits for the mutex) is not scheduled. *)
Record Config := {
  threads : list (Prog unit);
  machine : Machine;
  history : list (nat * Event)
}.

Definition step (t : nat) (cfg : Config) : option Config :=
  match threads cfg !! t with
  | Some (Act a k) =>
      match perform a (machine cfg) with
      | Some (r, m', evs) =>
          Some {| threads := <[t := k r]> (threads cfg);
                  machine := m';
                  history := history cfg ++ (pair t <$> evs) |}
      | None => None
      end
  | _ => None
  end.

Fixpoint exec (schedule : list nat) (cfg : Config) : option Config :=
  match schedule with
  | [] => Some cfg
  | t :: rest =>
      match step t cfg with
      | Some cfg' => exec rest cfg'
      | None => None
      end
  end.

(** ** What the design document calls things *)

(** The candidate socket paths in priority order: the four environment
    variables, then [/tmp]; empty or unset ones skipped; indices 0 to 9
    under each. *)
Definition base_dirs (w : Env) : list string :=
  [ default "" (environ w !! "XDG_RUNTIME_DIR");
    default "" (environ w !! "TMPDIR");
    default "" (environ w !! "TMP");
    default "" (environ w !! "TEMP");
    "/tmp" ].

Definition paths_under (dirs : list string) : list string :=
  d ← filter (fun d => d ≠ "") dirs;
  socket_path d <$> seq 0 10.

Definition candidates (w : Env) : list string := paths_under (base_dirs w).

Definition dial_failed (path : string) : Event := EvDial path false.

(** What [openSocket] does with a list of paths: dial them in order up to
    the first that accepts. *)
Fixpoint probe (socks : gmap string Conn) (paths : list string)
    : list Event * option Conn :=
  match paths with
  | [] => ([], None)
  | p :: rest =>
      match socks !! p with
      | Some c => ([EvDial p true], Some c)
      | None => let '(evs, r) := probe socks rest in (dial_failed p :: evs, r)
      end
  end.

(** The machine after a successful [Dial] that obtained [c]. *)
Definition dialed (c : Conn) (m : Machine) : Machine :=
  set_conns (conns m ++ [c]) m.

(** The bytes of one frame on the wire. *)
Definition frame_bytes (opcode : Z) (payload : list byte) : list byte :=
  PutUint32 opcode ++ PutUint32 (Z.of_nat (length payload)) ++ payload.

(** The bytes a run handed to successful [Write] calls, in order. *)
Definition written (evs : list Event) : list byte :=
  e ← evs;
  match e with EvWrite _ p true => p | _ => [] end.

Definition is_connect (e : Event) : bool :=
  match e with EvDial _ true => true | _ => false end.

Definition is_write (e : Event) : bool :=
  match e with EvWrite _ _ _ => true | _ => false end.

Definition is_read (e : Event) : bool :=
  match e with EvRead _ _ _ => true | _ => false end.

Definition count (f : Event -> bool) (evs : list Event) : nat :=
  length (filter (fun e => f e = true) evs).

(** The nonce pattern [xxxxxxxx-xxxx-4xxx-yxxx-xxxxxxxxxxxx]: [x] is a
    lower-case hexadecimal digit; [y] is one of [8 9 a b] when the variant
    bits are fixed as in a version 4 UUID, any hexadecimal digit when they
    are not. *)
Definition nonce_pattern : string := "xxxxxxxx-xxxx-4xxx-yxxx-xxxxxxxxxxxx".

Definition is_hex (c : ascii) : bool :=
  bool_decide (c ∈ String.list_ascii_of_string ldigits).

Definition is_variant (c : ascii) : bool :=
  bool_decide (c ∈ String.list_ascii_of_string "89ab").

Definition char_matches (variant_fixed : bool) (p c : ascii) : bool :=
  if Ascii.eqb p "x" then is_hex c
  else if Ascii.eqb p "y" then (if variant_fixed then is_variant c else is_hex c)
  else Ascii.eqb p c.

Fixpoint string_matches (variant_fixed : bool) (p s : string) : bool :=
  match p, s with
  | EmptyString, EmptyString => true
  | String pc p', String c s' =>
      char_matches variant_fixed pc c && string_matches variant_fixed p' s'
  | _, _ => false
  end.

(** The start and end instants of a description, as the design document
    has them: two optional instants. *)
Definition start_time (a : Activity) : option Time := Timestamps_ a ≫= Start.
Definition end_time_of (a : Activity) : option Time := Timestamps_ a ≫= End_.

(** Programs without [Lock] and [Unlock]. *)
Definition is_lock_action {R : Type} (a : Action R) : bool :=
  match a with Lock | Unlock => true | _ => false end.

Fixpoint NoLock {A : Type} (p : Prog A) : Prop :=
  match p with
  | Ret _ => True
  | Act a k => is_lock_action a = false ∧ ∀ r, NoLock (k r)
  end.

(** A goroutine that reaches the client only through the Bridge. *)
Inductive BridgeCall :=
| CallConnect
| CallDisconnect
| CallClearPresence
| CallUpdatePresence (track : Track) (state : PlayerState).

Definition call (c : BridgeCall) : Prog unit :=
  match c with
  | CallConnect => Connect;; Ret tt
  | CallDisconnect => Disconnect
  | CallClearPresence => ClearPresence
  | CallUpdatePresence track state => UpdatePresence track state
  end.

Fixpoint goroutine (calls : list BridgeCall) : Prog unit :=
  match calls with
  | [] => Ret tt
  | c :: rest => call c;; goroutine rest
  end.

(** A history is made of critical sections when it reads as a sequence of
    blocks [Lock ... Unlock], each block the events of one goroutine (the
    last block may be unfinished).  [sections holder h] scans [h] from the
    state [holder] (who holds the mutex) and gives the state at the end. *)
Fixpoint sections (holder : option nat) (h : list (nat * Event))
    : option (option nat) :=
  match h with
  | [] => Some holder
  | (t, e) :: rest =>
      match holder, e with
      | None, EvLock => sections (Some t) rest
      | None, _ => None
      | Some _, EvLock => None
      | Some t', EvUnlock =>
          if decide (t = t') then sections None rest else None
      | Some t', _ =>
          if decide (t = t') then sections (Some t') rest else None
      end
  end.

Definition critical_sections (h : list (nat * Event)) : Prop :=
  is_Some (sections None h).

Definition history_after (schedule : list nat) (cfg : Config)
    : option (list (nat * Event)) :=
  history <$> exec schedule cfg.

(** ** Auxiliary notions for the statements *)

Definition header_of (opcode : Z) (payload : list byte) : list byte :=
  PutUint32 opcode ++ PutUint32 (uint32 (Z.of_nat (length payload))).

(** A connection on which the next [n] writes succeed. *)
Definition can_write (n : nat) (c : Conn) : Prop :=
  closed c = false
  ∧ match wr_left c with None => True | Some k => (n <= k)%nat end.

Definition wrote (p : list byte) (c : Conn) : Conn :=
  {| rx := rx c; wr_left := pred <$> wr_left c; sent := sent c ++ [p];
     closed := closed c |}.

Definition with_rx (r : list RxEvent) (c : Conn) : Conn :=
  {| rx := r; wr_left := wr_left c; sent := sent c; closed := closed c |}.

Definition handshake_payload (m : Machine) : list byte :=
  json_text (world m)
    (marshal_handshake {| V := "1"; ClientId := clientID (client m) |}).

Definition is_close (e : Event) : bool :=
  match e with EvClose _ => true | _ => false end.

Definition holds_open_endpoint (m : Machine) : Prop :=
  ∃ id c, conn (client m) = Some id ∧ conns m !! id = Some c ∧ closed c = false.

(** The text of the command frame [SetActivity] and [ClearActivity] build
    on machine [m]. *)
Definition command_payload (m : Machine) (activity : option payloadActivity)
    : list byte :=
  json_text (world m)
    (marshal_frame
       {| Cmd := "SET_ACTIVITY";
          Args := {| Pid := pid (world m); Activity_ := activity |};
          Nonce := nonce_text (entropy (world m) <$> seq (rand_pos m) 16) |}).

(** The key of a text field, when the field is sent. *)
Definition present (v : string) (key : string) : list string :=
  if decide (v = "") then [] else [key].

(** The lock discipline of a program: started with the mutex held by the
    goroutine itself ([inside = true]) or not, it takes the mutex only when
    it does not hold it, performs every other action while holding it, and
    returns [a] in a state [inside'] with [Q inside' a]. *)
Fixpoint disciplined {A : Type} (Q : bool -> A -> Prop) (inside : bool)
    (p : Prog A) : Prop :=
  match p with
  | Ret a => Q inside a
  | Act a k =>
      match a in Action R return (R -> Prop) -> (R -> Prop) -> Prop with
      | Lock => fun out inn => inside = false ∧ inn tt
      | Unlock => fun out inn => inside = true ∧ out tt
      | _ => fun out inn => inside = true ∧ ∀ r, inn r
      end (fun r => disciplined Q false (k r))
          (fun r => disciplined Q true (k r))
  end.

(** A goroutine between two calls does not hold the mutex. *)
Definition released {A : Type} (inside : bool) (_ : A) : Prop := inside = false.

(** What holds of a configuration along every execution. *)
Definition coherent (cfg : Config) : Prop :=
  ∃ holder : option nat,
    sections None (history cfg) = Some holder
    ∧ mu (bridge (machine cfg)) = bool_decide (is_Some holder)
    ∧ ∀ t p, threads cfg !! t = Some p ->
        disciplined released (bool_decide (holder = Some t)) p.

Definition is_lock_event (e : Event) : bool :=
  match e with EvLock | EvUnlock => true | _ => false end.


(** ** The client's calls, one after the other *)

(** What the session keeps true: a logged-in session has a connection. *)
Definition session_ok (m : Machine) : Prop :=
  logged (client m) = true -> is_Some (conn (client m)).




(** What is left of a segment once a prefix has been read. *)
Definition leftover (more : list byte) (rest : list RxEvent) : list RxEvent :=
  match more with [] => rest | _ => Chunk more :: rest end.

(** The document of one button: the keys of its non-empty fields. *)
Definition button_document (b : Button) : json :=
  JObj ((if decide (Label b = "") then [] else [("label", JStr (Label b))])
     ++ (if decide (Url b = "") then [] else [("url", JStr (Url b))])).


(** ** The Bridge between two calls *)

(** What the Bridge keeps true between two calls: [connected] tells
    whether the client is logged in, and the client is in order. *)
Definition bridge_ok (m : Machine) : Prop :=
  connected (bridge m) = logged (client m) ∧ session_ok m.


(** Whether the byte [c] occurs in [s]. *)
Fixpoint occurs (c : ascii) (s : string) : bool :=
  match s with
  | EmptyString => false
  | String c' s' => if decide (c' = c) then true else occurs c s'
  end.

(** The activity [UpdatePresence] builds for a track, with the cover it
    found and the end of the track. *)
Definition presence (track : Track) (artworkURL : string) (endTime : Time)
    : Activity :=
  {| Type_ := ActivityTypeListening;
     Details := Name track;
     State := "by " +:+ Artist track;
     LargeImage := artworkURL;
     LargeText := Album track;
     SmallImage := "";
     SmallText := "";
     Timestamps_ := Some {| Start := None; End_ := Some endTime |};
     Buttons := [] |}.

(** ** main.go: the player

    [strings.HasPrefix], [strings.Index] (no index for Go's -1), the slices
    [s[:n]] and [s[n:]], [strings.Split] and [strings.Replace] with a count
    of 1, the last two for a separator that is not empty. *)
Fixpoint HasPrefix (s prefix : string) {struct prefix} : bool :=
  match prefix, s with
  | EmptyString, _ => true
  | String a prefix', String b s' =>
      if decide (a = b) then HasPrefix s' prefix' else false
  | String _ _, EmptyString => false
  end.

Fixpoint Index (s substr : string) : option nat :=
  if HasPrefix s substr then Some 0%nat
  else match s with
       | EmptyString => None
       | String _ s' => S <$> Index s' substr
       end.

Fixpoint slice_to (n : nat) (s : string) : string :=
  match n, s with
  | S n', String c s' => String c (slice_to n' s')
  | _, _ => EmptyString
  end.

Fixpoint slice_from (n : nat) (s : string) : string :=
  match n, s with
  | S n', String _ s' => slice_from n' s'
  | _, _ => s
  end.

(** The loop of [genSplit]: cut at the first separator, go on behind it.
    [fuel] bounds the number of cuts. *)
Fixpoint genSplit (fuel : nat) (s sep : string) : list string :=
  match fuel with
  | O => [s]
  | S fuel' =>
      match Index s sep with
      | None => [s]
      | Some m =>
          slice_to m s :: genSplit fuel' (slice_from (m + String.length sep) s) sep
      end
  end.

Definition Split (s sep : string) : list string :=
  genSplit (String.length s) s sep.

Definition Replace1 (s old new : string) : string :=
  match Index s old with
  | None => s
  | Some m => slice_to m s +:+ new +:+ slice_from (m + String.length old) s
  end.

#[export] Instance PlayerState_eq_dec : EqDecision PlayerState :=
  ltac:(solve_decision).

(** [Track.Equals]. *)
Definition Equals (t other : Track) : bool :=
  bool_decide (Name t = Name other)
  && bool_decide (Artist t = Artist other)
  && bool_decide (Album t = Album other).

(** The fields [lastTrack] and [lastState] of the Bridge, which the
    polling loop alone reads and writes. *)
Record LastSeen := { lastTrack : option Track; lastState : PlayerState }.

(** Their values in [NewBridge]. *)
Definition NewLastSeen : LastSeen :=
  {| lastTrack := None; lastState := StateNotRunning |}.

Definition ShouldUpdate (b : LastSeen) (track : Track) (state : PlayerState)
    : bool :=
  if bool_decide (state ≠ lastState b) then true
  else match lastTrack b with
       | None => true
       | Some seen => if negb (Equals track seen) then true else false
       end.

(** The three scripts handed to [osascript]: whether the Music process
    runs, the player state, the fields of the current track. *)
Inductive Script := ProcessesScript | PlayerStateScript | CurrentTrackScript.

Inductive player_error :=
| ErrScript                            (* what osascript returned *)
| ErrTrackInfo (cause : player_error)  (* "failed to get track info" *)
| ErrFormat (result : string)          (* "unexpected AppleScript output format" *)
| ErrDuration                          (* "failed to parse duration" *)
| ErrPosition.                         (* "failed to parse position" *)

Section Player.
(** [runAppleScript]: the trimmed output of a script, or nothing when
    the command failed.  [ParseFloat]: [strconv.ParseFloat(s, 64)], the
    float kept as its bits. *)
Variable runAppleScript : Script -> option string.
Variable ParseFloat : string -> option Z.

Definition GetPlayerState : PlayerState * option player_error :=
  match runAppleScript ProcessesScript with
  | None => (StateNotRunning, Some ErrScript)
  | Some result =>
      if decide (result ≠ "true") then (StateNotRunning, None) else
      match runAppleScript PlayerStateScript with
      | None => (StateNotRunning, Some ErrScript)
      | Some result =>
          if decide (result = "playing") then (StatePlaying, None)
          else if decide (result = "paused") then (StatePaused, None)
          else (StateNotRunning, None)
      end
  end.

Definition GetCurrentTrack : Track + player_error :=
  match runAppleScript CurrentTrackScript with
  | None => inr (ErrTrackInfo ErrScript)
  | Some result =>
      match Split result "|||" with
      | [p0; p1; p2; p3; p4] =>
          match ParseFloat p3 with
          | None => inr ErrDuration
          | Some duration =>
              match ParseFloat p4 with
              | None => inr ErrPosition
              | Some position =>
                  inl {| Name := p0; Artist := p1; Album := p2;
                         Duration := duration; PlayerPosition := position |}
              end
          end
      | _ => inr (ErrFormat result)
      end
  end.

(** [pollAndUpdate], from the last seen track and state to the new ones. *)
Definition pollAndUpdate (b : LastSeen) : Prog LastSeen :=
  c ← act GetConnected;
  err ← (if negb c then Connect else Ret None);
  match err with
  | Some _ => Ret b
  | None =>
      match GetPlayerState with
      | (_, Some _) => Ret b
      | (StateNotRunning, None) =>
          if bool_decide (lastState b ≠ StateNotRunning) then
            act (Log "Music app not running");;
            ClearPresence;;
            Ret {| lastTrack := None; lastState := StateNotRunning |}
          else Ret b
      | (StatePaused, None) =>
          if bool_decide (lastState b ≠ StatePaused) then
            act (Log "Playback paused");;
            ClearPresence;;
            Ret {| lastTrack := lastTrack b; lastState := StatePaused |}
          else Ret b
      | (StatePlaying, None) =>
          match GetCurrentTrack with
          | inr _ => act (Log "Error getting track info");; Ret b
          | inl track =>
              if ShouldUpdate b track StatePlaying then
                UpdatePresence track StatePlaying;;
                Ret {| lastTrack := Some track; lastState := StatePlaying |}
              else Ret b
          end
      end
  end.
End Player.



(** ** main.go: the cover search *)

(** The decoded answer of the search ([Results] holds the [artworkUrl100]
    of each result) and the response to a request. *)
Record iTunesSearchResult := { ResultCount : Z; Results : list string }.

Record Response := { StatusCode : Z; Body : option iTunesSearchResult }.

Inductive search_error :=
| ErrRequest                            (* what [httpClient.Get] returned *)
| ErrStatus (code : Z)                  (* "status %d" *)
| ErrDecode                             (* what the decoder returned *)
| ErrNoResults                          (* "no results" *)
| ErrNoArtwork (artist album : string). (* "no artwork found for %s - %s" *)

(** [cleanAlbum] at the head of [FetchArtworkURL]. *)
Definition cleanAlbum (album : string) : string :=
  let cleanAlbum := album in
  let cleanAlbum :=
    match Index cleanAlbum " - Single" with
    | Some idx => slice_to idx cleanAlbum
    | None => cleanAlbum
    end in
  let cleanAlbum :=
    match Index cleanAlbum " (From" with
    | Some idx => slice_to idx cleanAlbum
    | None => cleanAlbum
    end in
  cleanAlbum.

Module ITunes.
Section Requests.
(** [httpClient.Get] for the search of a term with the decoding of the
    body: nothing when the request failed, no body when it did not
    decode. *)
Variable httpGet : string -> option Response.

Definition searchITunes (query : string) : string + search_error :=
  match httpGet query with
  | None => inr ErrRequest
  | Some resp =>
      if decide (StatusCode resp ≠ 200) then inr (ErrStatus (StatusCode resp))
      else
        match Body resp with
        | None => inr ErrDecode
        | Some result =>
            if bool_decide (ResultCount result = 0)
               || bool_decide (length (Results result) = 0%nat)
            then inr ErrNoResults
            else
              let artworkURL := default "" (Results result !! 0%nat) in
              inl (Replace1 artworkURL "100x100bb" "600x600bb")
        end
  end.

Definition FetchArtworkURL (artist album : string) : string + search_error :=
  let cleanAlbum := cleanAlbum album in
  match searchITunes (artist +:+ " " +:+ cleanAlbum) with
  | inl url => inl url
  | inr _ =>
  match searchITunes cleanAlbum with
  | inl url => inl url
  | inr _ =>
  match searchITunes artist with
  | inl url => inl url
  | inr _ =>
      if decide (cleanAlbum ≠ album) then
        match searchITunes album with
        | inl url => inl url
        | inr _ => inr (ErrNoArtwork artist album)
        end
      else inr (ErrNoArtwork artist album)
  end end end.
End Requests.
End ITunes.

(** ** Mock environments for the examples *)

Definition DiscordAppID : string := "1463599058189946981".

Definition dquote : ascii := ascii_of_nat 34.

Definition quote (s : string) : string :=
  String dquote s +:+ String dquote EmptyString.

Definition comma_join (xs : list string) : string :=
  match xs with
  | [] => ""
  | x :: rest => foldl (fun acc y => acc +:+ "," +:+ y) x rest
  end.

(** A rendering for the examples: the compact text of a document whose
    strings need no escape. *)
Fixpoint compact (j : json) : string :=
  match j with
  | JNull => "null"
  | JNum n => pretty n
  | JStr s => quote s
  | JArr xs => "[" +:+ comma_join (List.map compact xs) +:+ "]"
  | JObj fs =>
      "{" +:+ comma_join (List.map (fun kv : string * json =>
                 let (k, v) := kv in quote k +:+ ":" +:+ compact v) fs) +:+ "}"
  end.

Definition compact_text (j : json) : list byte :=
  String.list_byte_of_string (compact j).

Definition mock_env (vars : gmap string string) (socks : gmap string Conn) : Env :=
  {| environ := vars;
     sockets := socks;
     entropy := fun _ => x00;
     pid := 4242;
     json_text := compact_text;
     fetch := fun _ _ => None;
     end_time := fun _ => {| unixSec := 1700000000; nsec := 0 |} |}.

(** [NewBridge()] in a given environment. *)
Definition boot (w : Env) : Machine :=
  {| world := w;
     rand_pos := 0;
     conns := [];
     client := NewClient DiscordAppID;
     bridge := {| cache := ∅; connected := false; mu := false |} |}.

(** A peer that answers with the given segments. *)
Definition peer (segments : list RxEvent) : Conn :=
  {| rx := segments; wr_left := None; sent := []; closed := false |}.

Definition ready_reply : list byte :=
  frame_bytes 1 (String.list_byte_of_string "{}").

(** Discord listening on [/tmp/discord-ipc-3] and acknowledging the
    handshake; no environment variable set. *)
Definition discord_at_3 : Env :=
  mock_env ∅ {[ "/tmp/discord-ipc-3" := peer [Chunk ready_reply] ]}.

(** The same, with a peer that closes without a reply. *)
Definition discord_silent : Env :=
  mock_env ∅ {[ "/tmp/discord-ipc-3" := peer [] ]}.

(** The machine once [Login] has run. *)
Definition after_login (w : Env) : Machine :=
  match run Login (boot w) with
  | Some (_, m, _) => m
  | None => boot w
  end.

(** A machine whose client holds one open connection with the given
    incoming segments. *)
Definition receiving (segments : list RxEvent) : Machine :=
  {| world := mock_env ∅ ∅;
     rand_pos := 0;
     conns := [peer segments];
     client := {| clientID := DiscordAppID; conn := Some 0%nat; logged := true |};
     bridge := {| cache := ∅; connected := true; mu := false |} |}.

(** Two goroutines that drive the Bridge, and one way to schedule them:
    the first connects, the second updates the presence, the first clears
    it, the second disconnects. *)
Definition song : Track :=
  {| Name := "Song"; Artist := "Artist"; Album := "Album";
     Duration := 0; PlayerPosition := 0 |}.

Definition two_goroutines : Config :=
  {| threads := goroutine <$>
       [ [CallConnect; CallClearPresence];
         [CallUpdatePresence song StatePlaying; CallDisconnect] ];
     machine := boot discord_at_3;
     history := [] |}.

Definition two_goroutines_schedule : list nat :=
  replicate 26 0%nat ++ replicate 17 1%nat
  ++ replicate 12 0%nat ++ replicate 10 1%nat.

Definition two_goroutines_history : list (nat * Event) :=
  Eval vm_compute in
    default [] (history_after two_goroutines_schedule two_goroutines).

(** Two goroutines that call the client directly on a connected session. *)
Definition two_direct_callers : Config :=
  {| threads := [ClearActivity;; Ret tt; ClearActivity;; Ret tt];
     machine := after_login discord_at_3;
     history := [] |}.

Definition interleaving_schedule : list nat :=
  replicate 6 0%nat ++ replicate 6 1%nat ++ [0; 0; 1; 1]%nat.

(** What [Login] shows on the first machine. *)
Definition login_events : list Event :=
  Eval vm_compute in
    match run Login (boot discord_at_3) with
    | Some (_, _, evs) => evs
    | None => []
    end.

(** What [Connect] shows there. *)
Definition connect_events : list Event :=
  Eval vm_compute in
    match run (call CallConnect) (boot discord_at_3) with
    | Some (_, _, evs) => evs
    | None => []
    end.

Definition after_connect : Machine :=
  match run (call CallConnect) (boot discord_at_3) with
  | Some (_, m, _) => m
  | None => boot discord_at_3
  end.

Definition hello : list byte := String.list_byte_of_string "hello".

(** A document of four kilobytes. *)
Definition kilobytes : list byte := replicate 4096 "a"%byte.

(** A description as the Bridge builds it: listening, with an end instant. *)
Definition listening_until (e : Time) : Activity :=
  {| Type_ := ActivityTypeListening; Details := "Song"; State := "by Artist";
     LargeImage := ""; LargeText := "Album"; SmallImage := ""; SmallText := "";
     Timestamps_ := Some {| Start := None; End_ := Some e |}; Buttons := [] |}.

Definition new_year_2024 : Time := {| unixSec := 1704067200; nsec := 500000000 |}.

Definition listening_since (s : Time) : Activity :=
  {| Type_ := ActivityTypeListening; Details := "Song"; State := "by Artist";
     LargeImage := ""; LargeText := "Album"; SmallImage := ""; SmallText := "";
     Timestamps_ := Some {| Start := Some s; End_ := None |}; Buttons := [] |}.

Definition listening : Activity :=
  {| Type_ := ActivityTypeListening; Details := "Song"; State := "by Artist";
     LargeImage := ""; LargeText := "Album"; SmallImage := ""; SmallText := "";
     Timestamps_ := None; Buttons := [] |}.

(** ** Mock players and searches *)

(** An environment without Discord. *)
Definition no_discord : Env := mock_env ∅ ∅.

(** A player that plays [song], a player that plays a track with the
    separator in its name, and a parser that knows their two numbers. *)
Definition playing_song (s : Script) : option string :=
  match s with
  | ProcessesScript => Some "true"
  | PlayerStateScript => Some "playing"
  | CurrentTrackScript => Some "Song|||Artist|||Album|||215.5|||12.25"
  end.

Definition playing_separator (s : Script) : option string :=
  match s with
  | ProcessesScript => Some "true"
  | PlayerStateScript => Some "playing"
  | CurrentTrackScript => Some "So|||ng|||Artist|||Album|||215.5|||12.25"
  end.

Definition parse_mock (s : string) : option Z :=
  if decide (s = "215.5") then Some 4641786248749383680
  else if decide (s = "12.25") then Some 4623085754984169472
  else None.

Definition song_playing : Track :=
  {| Name := "Song"; Artist := "Artist"; Album := "Album";
     Duration := 4641786248749383680;
     PlayerPosition := 4623085754984169472 |}.

(** A search that finds one cover, for the query [Artist Album]. *)
Definition one_cover (query : string) : option Response :=
  if decide (query = "Artist Album") then
    Some {| StatusCode := 200;
            Body := Some {| ResultCount := 1;
                            Results := ["https://example.org/100x100bb.jpg"] |} |}
  else None.

(** * Properties *)

(** ** Running programs *)

Lemma run_bind {A B : Type} (p : Prog A) (k : A -> Prog B) (m : Machine) :
  run (bind p k) m =
  match run p m with
  | None => None
  | Some (a, m', evs) =>
      match run (k a) m' with
      | None => None
      | Some (b, m'', evs') => Some (b, m'', evs ++ evs')
      end
  end.
Proof.
  revert m. induction p as [a | R a c IH]; intros m; simpl.
  - by destruct (run (k a) m) as [[[b m''] evs']|].
  - destruct (perform a m) as [[[r m'] evs]|]; [|done].
    rewrite IH. destruct (run (c r) m') as [[[x m''] evs']|]; [|done].
    destruct (run (k x) m'') as [[[b m3] evs3]|]; [|done].
    by rewrite app_assoc.
Qed.

Lemma run_bind_Some {A B : Type} (p : Prog A) (k : A -> Prog B) m b m2 evs :
  run (bind p k) m = Some (b, m2, evs) ->
  ∃ a m1 evs1 evs2,
    run p m = Some (a, m1, evs1)
    ∧ run (k a) m1 = Some (b, m2, evs2)
    ∧ evs = evs1 ++ evs2.
Proof.
  rewrite run_bind.
  destruct (run p m) as [[[a m1] evs1]|]; [|done].
  destruct (run (k a) m1) as [[[b' m2'] evs2]|] eqn:E; [|done].
  intros [= -> -> <-]. by exists a, m1, evs1, evs2.
Qed.

(** ** Bytes and the little-endian header *)

Lemma byte_to_Z_range (b : byte) : 0 <= byte_to_Z b < 256.
Proof. destruct b; vm_compute; split; congruence. Qed.

Lemma byte_of_to_Z (b : byte) : byte_of_Z (byte_to_Z b) = b.
Proof. by destruct b. Qed.

Lemma byte_to_of_Z (z : Z) : byte_to_Z (byte_of_Z z) = z mod 256.
Proof.
  unfold byte_to_Z, byte_of_Z.
  assert (H : 0 <= z mod 256 < 256) by (apply Z.mod_pos_bound; lia).
  destruct (Byte.of_N (Z.to_N (z mod 256))) as [y|] eqn:E.
  - apply Byte.to_of_N in E. simpl. rewrite E. lia.
  - apply Byte.of_N_None_iff in E. lia.
Qed.

Lemma Uint32_PutUint32 (v : Z) (rest : list byte) :
  Uint32 (PutUint32 v ++ rest) = v mod 2 ^ 32.
Proof.
  unfold Uint32, PutUint32. simpl.
  rewrite !byte_to_of_Z.
  apply Z.bits_inj'. intros n Hn.
  change 256 with (2 ^ 8).
  rewrite !Z.lor_spec, !Z.shiftl_spec by lia.
  destruct (Z.lt_ge_cases n 8);
    [|destruct (Z.lt_ge_cases n 16);
      [|destruct (Z.lt_ge_cases n 24); [|destruct (Z.lt_ge_cases n 32)]]].
  all: repeat first
         [ rewrite Z.mod_pow2_bits_low by lia
         | rewrite Z.mod_pow2_bits_high by lia
         | rewrite Z.shiftr_spec by lia ].
  all: repeat match goal with
       | |- context [Z.testbit ?a ?k] => rewrite (Z.testbit_neg_r a k) by lia
       end.
  all: rewrite ?orb_false_r, ?orb_false_l; try reflexivity.
  all: f_equal; lia.
Qed.

Lemma byte_of_Z_mod (z : Z) : byte_of_Z (z mod 256) = byte_of_Z z.
Proof. unfold byte_of_Z. by rewrite Z.mod_mod. Qed.

Lemma PutUint32_uint32 (v : Z) : PutUint32 (uint32 v) = PutUint32 v.
Proof.
  unfold PutUint32, uint32.
  assert (E : ∀ k, 0 <= k <= 24 ->
              byte_of_Z (Z.shiftr (v mod 2 ^ 32) k) = byte_of_Z (Z.shiftr v k)).
  { intros k Hk.
    rewrite <- (byte_of_Z_mod (Z.shiftr (v mod 2 ^ 32) k)),
            <- (byte_of_Z_mod (Z.shiftr v k)).
    f_equal. change 256 with (2 ^ 8).
    apply Z.bits_inj'. intros n Hn.
    destruct (Z.lt_ge_cases n 8).
    - rewrite !Z.mod_pow2_bits_low, !Z.shiftr_spec, Z.mod_pow2_bits_low by lia.
      done.
    - by rewrite !Z.mod_pow2_bits_high by lia. }
  rewrite <- (Z.shiftr_0_r (v mod 2 ^ 32)), <- (Z.shiftr_0_r v) at 1.
  by rewrite !E by lia.
Qed.

(** ** Socket discovery *)

Lemma probe_app socks l1 l2 :
  probe socks (l1 ++ l2) =
  match probe socks l1 with
  | (evs, Some c) => (evs, Some c)
  | (evs, None) => let '(evs', r) := probe socks l2 in (evs ++ evs', r)
  end.
Proof.
  induction l1 as [|p l1 IH]; simpl.
  - by destruct (probe socks l2).
  - destruct (socks !! p); [done|]. rewrite IH.
    destruct (probe socks l1) as [evs [c|]]; [done|].
    by destruct (probe socks l2).
Qed.

Lemma run_dial_indices tmpDir n i next m :
  run (dial_indices tmpDir n i next) m =
  match probe (sockets (world m)) (socket_path tmpDir <$> seq i n) with
  | (evs, Some c) => Some (inl (length (conns m)), dialed c m, evs)
  | (evs, None) =>
      match run next m with
      | Some (r, m', evs') => Some (r, m', evs ++ evs')
      | None => None
      end
  end.
Proof.
  revert i. induction n as [|n IH]; intros i; simpl.
  - by destruct (run next m) as [[[r m'] evs']|].
  - destruct (sockets (world m) !! socket_path tmpDir i) as [c|]; simpl; [done|].
    rewrite IH.
    destruct (probe _ _) as [evs [c|]]; [done|].
    by destruct (run next m) as [[[r m'] evs']|].
Qed.

Lemma run_dial_dirs dirs m :
  run (dial_dirs dirs) m =
  match probe (sockets (world m)) (paths_under dirs) with
  | (evs, Some c) => Some (inl (length (conns m)), dialed c m, evs)
  | (evs, None) => Some (inr ErrSocketNotFound, m, evs)
  end.
Proof.
  induction dirs as [|d dirs IH]; [done|].
  cbn [dial_dirs]. unfold paths_under in *. rewrite filter_cons.
  destruct (decide (d = "")) as [->|Hd].
  - rewrite decide_False by (intros H; by apply H). done.
  - rewrite decide_True by done. rewrite bind_cons.
    rewrite run_dial_indices, probe_app, IH.
    destruct (probe _ (socket_path d <$> _)) as [evs [c|]]; [done|].
    by destruct (probe _ _) as [evs' [c|]].
Qed.

Lemma run_openSocket m :
  run openSocket m =
  match probe (sockets (world m)) (candidates (world m)) with
  | (evs, Some c) => Some (inl (length (conns m)), dialed c m, evs)
  | (evs, None) => Some (inr ErrSocketNotFound, m, evs)
  end.
Proof.
  unfold openSocket. cbn -[dial_dirs].
  rewrite run_dial_dirs. fold (base_dirs (world m)).
  change (paths_under (base_dirs (world m))) with (candidates (world m)).
  by destruct (probe _ _) as [evs [c|]].
Qed.

Lemma probe_found socks paths evs c :
  probe socks paths = (evs, Some c) ->
  ∃ pre p post,
    paths = pre ++ p :: post
    ∧ Forall (fun q => socks !! q = None) pre
    ∧ socks !! p = Some c
    ∧ evs = (dial_failed <$> pre) ++ [EvDial p true].
Proof.
  revert evs. induction paths as [|q paths IH]; intros evs H; simpl in H; [done|].
  destruct (socks !! q) as [c'|] eqn:E.
  - inversion H; subst. exists [], q, paths. by repeat split.
  - destruct (probe socks paths) as [evs' r] eqn:E'. inversion H; subst.
    destruct (IH _ eq_refl) as (pre & p & post & -> & Hpre & Hp & ->).
    exists (q :: pre), p, post. repeat split; auto.
Qed.

Lemma probe_not_found socks paths evs :
  probe socks paths = (evs, None) ->
  Forall (fun q => socks !! q = None) paths ∧ evs = dial_failed <$> paths.
Proof.
  revert evs. induction paths as [|q paths IH]; intros evs H; simpl in H.
  - inversion H. by split.
  - destruct (socks !! q) as [c'|] eqn:E; [done|].
    destruct (probe socks paths) as [evs' r] eqn:E'. inversion H; subst.
    destruct (IH _ eq_refl) as [Hall ->]. split; [by constructor | done].
Qed.

(** C6. [openSocket] dials the candidate paths in order: either some
    candidate accepts, every candidate before it was dialed and refused, it
    is dialed last and its connection is returned; or every candidate was
    dialed and refused and the result is the not-found error. *)
Theorem openSocket_first_success (m : Machine) :
  let socks := sockets (world m) in
  let paths := candidates (world m) in
  (∃ pre p post c,
      paths = pre ++ p :: post
      ∧ Forall (fun q => socks !! q = None) pre
      ∧ socks !! p = Some c
      ∧ run openSocket m =
        Some (inl (length (conns m)), dialed c m,
              (dial_failed <$> pre) ++ [EvDial p true]))
  ∨ (Forall (fun q => socks !! q = None) paths
     ∧ run openSocket m =
       Some (inr ErrSocketNotFound, m, dial_failed <$> paths)).
Proof.
  intros socks paths. rewrite run_openSocket. fold socks paths.
  destruct (probe socks paths) as [evs [c|]] eqn:E.
  - left. apply probe_found in E as (pre & p & post & ? & ? & ? & ->).
    by exists pre, p, post, c.
  - right. apply probe_not_found in E as [? ->]. by split.
Qed.

(** ** Framing *)

Lemma conn_write_ok n p c :
  can_write (S n) c -> conn_write p c = (None, wrote p c) ∧ can_write n (wrote p c).
Proof.
  intros [Hc Hw]. unfold conn_write, wrote, can_write. rewrite Hc.
  destruct (wr_left c) as [[|k]|]; simpl; try lia; (split; [done|]); split; try done; lia.
Qed.

Lemma run_send_ok opcode payload m id c :
  conn (client m) = Some id ->
  conns m !! id = Some c ->
  can_write 2 c ->
  run (send opcode payload) m =
  Some (None,
        set_conns (<[id := wrote payload (wrote (header_of opcode payload) c)]> (conns m)) m,
        [EvWrite id (header_of opcode payload) true; EvWrite id payload true]).
Proof.
  intros Hid Hc Hw. unfold send. fold (header_of opcode payload).
  destruct (conn_write_ok 1 (header_of opcode payload) c Hw) as [E1 Hw1].
  destruct (conn_write_ok 0 payload _ Hw1) as [E2 _].
  cbn -[conn_write header_of]. rewrite Hid. cbn -[conn_write header_of].
  rewrite Hc, E1. cbn -[conn_write header_of].
  rewrite Hid. cbn -[conn_write header_of].
  rewrite list_lookup_insert_eq by (by eapply lookup_lt_Some).
  rewrite E2. cbn -[conn_write header_of]. by rewrite list_insert_insert_eq.
Qed.

Lemma conn_read_chunk n data rest c :
  closed c = false ->
  rx c = Chunk data :: rest ->
  (0 < n)%nat ->
  data ≠ [] ->
  conn_read n c =
  (Some (take n data),
   with_rx (if decide (n < length data)%nat
            then Chunk (drop n data) :: rest else rest) c).
Proof.
  intros Hc Hrx Hn Hd. unfold conn_read. rewrite Hc, Hrx.
  destruct n as [|n]; [lia|]. destruct data; [by destruct Hd|].
  unfold with_rx. by rewrite Hc.
Qed.

Lemma conn_read_empty c : closed c = false -> conn_read 0 c = (Some [], c).
Proof. intros H. unfold conn_read. by rewrite H. Qed.

Lemma fill_exact (got : list byte) : fill (length got) got = got.
Proof.
  unfold fill. rewrite firstn_all, Nat.sub_diag. simpl. apply app_nil_r.
Qed.

Lemma length_PutUint32 v : length (PutUint32 v) = 4%nat.
Proof. done. Qed.

Lemma frame_bytes_header opcode payload :
  frame_bytes opcode payload = header_of opcode payload ++ payload.
Proof.
  unfold frame_bytes, header_of. by rewrite PutUint32_uint32, <- app_assoc.
Qed.

Lemma length_header_of opcode payload : length (header_of opcode payload) = 8%nat.
Proof. done. Qed.

Lemma header_length_field opcode payload :
  Uint32 (take 4 (drop 4 (header_of opcode payload))) =
  Z.of_nat (length payload) mod 2 ^ 32.
Proof.
  unfold header_of.
  rewrite drop_app_length' by done.
  rewrite firstn_all2 by (rewrite length_PutUint32; lia).
  rewrite <- (app_nil_r (PutUint32 _)), Uint32_PutUint32.
  unfold uint32. by rewrite Z.mod_mod.
Qed.

Lemma run_receive_frame opcode payload m id c rest :
  Z.of_nat (length payload) < 2 ^ 32 ->
  conn (client m) = Some id ->
  conns m !! id = Some c ->
  closed c = false ->
  rx c = Chunk (frame_bytes opcode payload) :: rest ->
  run receive m =
  Some (inl payload,
        set_conns (<[id := with_rx rest c]> (conns m)) m,
        [EvRead id 8 (Some (header_of opcode payload));
         EvRead id (length payload) (Some payload)]).
Proof.
  intros Hlen Hid Hc Hcl Hrx. rewrite frame_bytes_header in Hrx.
  assert (Hlt : (id < length (conns m))%nat) by by eapply lookup_lt_Some.
  pose proof (length_header_of opcode payload) as Hh.
  assert (E1 : conn_read 8 c =
               (Some (header_of opcode payload),
                with_rx (if decide (payload = []) then rest
                         else Chunk payload :: rest) c)).
  { rewrite (conn_read_chunk 8 _ rest c Hcl Hrx) by (try lia; by destruct payload).
    rewrite take_app_length' by done. f_equal. f_equal.
    rewrite length_app, Hh, drop_app_length' by done.
    by destruct payload. }
  unfold receive. cbn -[conn_read header_of Uint32 fill].
  rewrite Hid. cbn -[conn_read header_of Uint32 fill].
  rewrite Hc, E1. cbn -[conn_read header_of Uint32 fill].
  rewrite Hid. cbn -[conn_read header_of Uint32 fill].
  rewrite list_lookup_insert_eq by done.
  assert (Hf : fill 8 (header_of opcode payload) = header_of opcode payload)
    by (rewrite <- Hh at 1; apply fill_exact).
  rewrite Hf, header_length_field.
  rewrite Z.mod_small, Nat2Z.id by lia.
  destruct payload as [|b payload].
  - rewrite decide_True by done.
    rewrite conn_read_empty by done.
    cbn. by rewrite list_insert_insert_eq.
  - rewrite decide_False by done.
    rewrite (conn_read_chunk _ (b :: payload) rest) by (simpl; done || lia).
    rewrite firstn_all, decide_False by lia.
    cbn -[fill length]. by rewrite fill_exact, list_insert_insert_eq.
Qed.

Lemma conn_write_cases p c :
  (conn_write p c = (None, wrote p c) ∧ closed c = false)
  ∨ conn_write p c = (Some ErrConn, c).
Proof.
  unfold conn_write, wrote. destruct (closed c); [by right|].
  destruct (wr_left c) as [[|k]|]; auto.
Qed.

Lemma send_inv opcode payload m e m' evs :
  run (send opcode payload) m = Some (e, m', evs) ->
  client m' = client m
  ∧ world m' = world m
  ∧ rand_pos m' = rand_pos m
  ∧ bridge m' = bridge m
  ∧ ∃ id, conn (client m) = Some id
     ∧ match e with
       | None => evs = [EvWrite id (header_of opcode payload) true;
                        EvWrite id payload true]
                 ∧ ∃ c, conns m' !! id = Some c ∧ closed c = false
       | Some e' => e' = ErrConn
           ∧ (evs = [EvWrite id (header_of opcode payload) false]
              ∨ evs = [EvWrite id (header_of opcode payload) true;
                       EvWrite id payload false])
       end.
Proof.
  unfold send. fold (header_of opcode payload).
  cbn -[header_of conn_write]. intros H.
  destruct (conn (client m)) as [id|] eqn:Hid; [|done].
  cbn -[header_of conn_write] in H.
  destruct (conns m !! id) as [c|] eqn:Hc; cbn -[header_of conn_write] in H.
  2: { simplify_eq. repeat split; eauto. }
  assert (Hlt : (id < length (conns m))%nat) by by eapply lookup_lt_Some.
  destruct (conn_write_cases (header_of opcode payload) c) as [[E Hcl]|E];
    rewrite E in H; cbn -[header_of conn_write] in H.
  2: { simplify_eq. repeat split; eauto. }
  rewrite Hid in H. cbn -[header_of conn_write] in H.
  rewrite list_lookup_insert_eq in H by done.
  destruct (conn_write_cases payload (wrote (header_of opcode payload) c))
    as [[E2 Hcl2]|E2]; rewrite E2 in H; cbn -[header_of conn_write] in H.
  - simplify_eq. repeat split; eauto. eexists; repeat split; eauto.
    eexists. split.
    + cbn. apply list_lookup_insert_eq. by rewrite length_insert.
    + done.
  - simplify_eq. repeat split; eauto.
Qed.

Lemma conn_read_closed n c : closed (conn_read n c).2 = closed c.
Proof.
  unfold conn_read. destruct (closed c) eqn:E; [done|].
  destruct n; [done|]. destruct (rx c) as [|[[|b data]|] rest]; simpl; done.
Qed.

Lemma insert_keeps_closed (cs : list Conn) (id : nat) (c c' : Conn) :
  cs !! id = Some c ->
  closed c' = closed c ->
  ∀ j d, cs !! j = Some d ->
    ∃ d', <[id := c']> cs !! j = Some d' ∧ closed d' = closed d.
Proof.
  intros Hc Hcl j d Hd. destruct (decide (id = j)) as [->|Hne].
  - exists c'. rewrite list_lookup_insert_eq by (by eapply lookup_lt_Some).
    split; congruence.
  - exists d. by rewrite list_lookup_insert_ne.
Qed.

Lemma receive_inv m r m' evs :
  run receive m = Some (r, m', evs) ->
  client m' = client m
  ∧ world m' = world m
  ∧ rand_pos m' = rand_pos m
  ∧ bridge m' = bridge m
  ∧ (∀ j d, conns m !! j = Some d ->
       ∃ d', conns m' !! j = Some d' ∧ closed d' = closed d)
  ∧ ∃ id, conn (client m) = Some id
     ∧ match r with
       | inl _ => ∃ n g1 g2,
           evs = [EvRead id 8 (Some g1); EvRead id n (Some g2)]
       | inr e => e = ErrConn
           ∧ (evs = [EvRead id 8 None]
              ∨ ∃ n g1, evs = [EvRead id 8 (Some g1); EvRead id n None])
       end.
Proof.
  unfold receive. cbn -[conn_read Uint32 fill]. intros H.
  destruct (conn (client m)) as [id|] eqn:Hid; [|done].
  cbn -[conn_read Uint32 fill] in H.
  destruct (conns m !! id) as [c|] eqn:Hc; cbn -[conn_read Uint32 fill] in H.
  2: { simplify_eq. repeat split; eauto 10. }
  assert (Hlt : (id < length (conns m))%nat) by by eapply lookup_lt_Some.
  pose proof (conn_read_closed 8 c) as Hcl.
  destruct (conn_read 8 c) as [[g1|] c1] eqn:E1; simpl in Hcl;
    cbn -[conn_read Uint32 fill] in H.
  2: { simplify_eq. repeat split; eauto 10.
       by apply insert_keeps_closed with c. }
  rewrite Hid in H. cbn -[conn_read Uint32 fill] in H.
  rewrite list_lookup_insert_eq in H by done.
  set (n := Z.to_nat _) in H.
  pose proof (conn_read_closed n c1) as Hcl2.
  destruct (conn_read n c1) as [[g2|] c2] eqn:E2; simpl in Hcl2;
    cbn -[conn_read Uint32 fill] in H; simplify_eq;
    rewrite list_insert_insert_eq.
  all: repeat split; eauto 10.
  all: apply insert_keeps_closed with c; congruence.
Qed.

(** ** Login and Logout *)

Lemma run_Login_logged m :
  logged (client m) = true -> run Login m = Some (None, m, []).
Proof. intros H. unfold Login. cbn -[openSocket]. by rewrite H. Qed.

Lemma run_Login m :
  logged (client m) = false ->
  run Login m =
  match probe (sockets (world m)) (candidates (world m)) with
  | (evs, None) =>
      Some (Some (ErrWrap "failed to connect to Discord" ErrSocketNotFound),
            m, evs)
  | (evs, Some c) =>
      let m1 := set_client (with_conn (Some (length (conns m))) (client m))
                  (dialed c m) in
      match run (send 0 (handshake_payload m)) m1 with
      | None => None
      | Some (Some e, m2, evs2) => Some (Some e, m2, evs ++ evs2)
      | Some (None, m2, evs2) =>
          match run receive m2 with
          | None => None
          | Some (inr e, m3, evs3) =>
              Some (Some (ErrWrap "handshake failed" e), m3,
                    evs ++ evs2 ++ evs3)
          | Some (inl _, m3, evs3) =>
              Some (None, set_client (with_logged true (client m3)) m3,
                    evs ++ evs2 ++ evs3)
          end
      end
  end.
Proof.
  intros H. unfold Login, mbind, Prog_bind.
  match goal with |- _ = ?rhs => set (R := rhs) end.
  cbn -[openSocket send receive]. rewrite H.
  rewrite run_bind, run_openSocket. subst R.
  destruct (probe _ _) as [evs [c|]]; [|by cbn; rewrite app_nil_r].
  cbn -[send receive]. rewrite run_bind.
  fold (handshake_payload m).
  destruct (run (send _ _) _) as [[[[e|] m2] evs2]|]; [| |done].
  { cbn. by rewrite app_nil_r. }
  rewrite run_bind.
  destruct (run receive m2) as [[[[data|e] m3] evs3]|]; cbn; try done.
  all: by rewrite app_nil_r.
Qed.

Lemma count_app f l1 l2 : count f (l1 ++ l2) = (count f l1 + count f l2)%nat.
Proof. unfold count. by rewrite filter_app, length_app. Qed.

Lemma count_dial_failed f paths :
  f (EvDial "" false) = false ->
  (∀ p q, f (EvDial p false) = f (EvDial q false)) ->
  count f (dial_failed <$> paths) = 0%nat.
Proof.
  intros H0 Hf. induction paths as [|p paths IH]; [done|].
  unfold count in *. rewrite fmap_cons, filter_cons.
  rewrite decide_False; [done|]. unfold dial_failed. rewrite (Hf p ""), H0. done.
Qed.

Lemma Login_success m m1 evs :
  logged (client m) = false ->
  run Login m = Some (None, m1, evs) ->
  logged (client m1) = true
  ∧ holds_open_endpoint m1
  ∧ count is_connect evs = 1%nat
  ∧ count is_write evs = 2%nat
  ∧ count is_read evs = 2%nat.
Proof.
  intros Hl H. rewrite run_Login in H by done.
  destruct (probe _ _) as [evs0 [c|]] eqn:Ep; [|done].
  apply probe_found in Ep as (pre & p & post & _ & _ & _ & ->).
  cbv zeta in H.
  destruct (run (send _ _) _) as [[[[e|] m2] evs2]|] eqn:Es; [done| |done].
  apply send_inv in Es as (Hc2 & _ & _ & _ & id & Hid & -> & c2 & Hc2' & Hcl2).
  destruct (run receive m2) as [[[[data|e] m3] evs3]|] eqn:Er; [|done|done].
  apply receive_inv in Er as (Hc3 & _ & _ & _ & Hkeep & id' & Hid' & n & g1 & g2 & ->).
  simplify_eq. split; [done|]. split.
  - destruct (Hkeep _ _ Hc2') as (d' & Hd' & Hcl').
    exists id', d'. cbn. rewrite Hc3. repeat split; congruence.
  - rewrite !count_app, !count_dial_failed by done. done.
Qed.

Lemma Login_handshake_failure m m1 e evs :
  logged (client m) = false ->
  run Login m = Some (Some (ErrWrap "handshake failed" e), m1, evs) ->
  logged (client m1) = false
  ∧ holds_open_endpoint m1
  ∧ count is_close evs = 0%nat.
Proof.
  intros Hl H. rewrite run_Login in H by done.
  destruct (probe _ _) as [evs0 [c|]] eqn:Ep; [|done].
  apply probe_found in Ep as (pre & p & post & _ & _ & _ & ->).
  cbv zeta in H.
  destruct (run (send _ _) _) as [[[[e'|] m2] evs2]|] eqn:Es; [| |done].
  { apply send_inv in Es as (_ & _ & _ & _ & id & Hid & -> & _). by simplify_eq. }
  apply send_inv in Es as (Hc2 & _ & _ & _ & id & Hid & -> & c2 & Hc2' & Hcl2).
  destruct (run receive m2) as [[[[data|e'] m3] evs3]|] eqn:Er; [done| |done].
  apply receive_inv in Er as (Hc3 & _ & _ & _ & Hkeep & id' & Hid' & -> & Hev).
  simplify_eq. rewrite Hc3, Hc2. split; [done|]. split.
  - destruct (Hkeep _ _ Hc2') as (d' & Hd' & Hcl').
    exists id', d'. rewrite Hc3. repeat split; congruence.
  - rewrite !count_app, !count_dial_failed by done.
    by destruct Hev as [->|(n & g1 & ->)].
Qed.

Lemma Login_not_found m m1 evs :
  logged (client m) = false ->
  run Login m =
    Some (Some (ErrWrap "failed to connect to Discord" ErrSocketNotFound), m1, evs) ->
  m1 = m.
Proof.
  intros Hl H. rewrite run_Login in H by done.
  destruct (probe _ _) as [evs0 [c|]] eqn:Ep; [|by simplify_eq].
  cbv zeta in H.
  destruct (run (send _ _) _) as [[[[e'|] m2] evs2]|] eqn:Es; [| |done].
  { apply send_inv in Es as (_ & _ & _ & _ & id & Hid & -> & _). by simplify_eq. }
  by destruct (run receive m2) as [[[[data|e'] m3] evs3]|].
Qed.


(** C9. [Login] on a connected session returns success and does nothing;
    so when a first [Login] from a disconnected session succeeds, a second
    one right after adds nothing: the two calls together make one
    successful connect, write one frame (two [Write] calls) and read one
    frame (two [Read] calls). *)
Theorem Login_idempotent (m : Machine) :
  (logged (client m) = true -> run Login m = Some (None, m, []))
  ∧ (∀ m1 evs,
       logged (client m) = false ->
       run Login m = Some (None, m1, evs) ->
       run (Login;; Login) m = Some (None, m1, evs)
       ∧ count is_connect evs = 1%nat
       ∧ count is_write evs = 2%nat
       ∧ count is_read evs = 2%nat).
Proof.
  split; [apply run_Login_logged|].
  intros m1 evs Hl H.
  destruct (Login_success _ _ _ Hl H) as (Hl1 & _ & Hc & Hw & Hr).
  repeat split; try done.
  unfold mbind, Prog_bind. rewrite run_bind, H, run_Login_logged by done.
  by rewrite app_nil_r.
Qed.

Lemma written_send id opcode payload :
  written [EvWrite id (header_of opcode payload) true; EvWrite id payload true]
  = frame_bytes opcode payload.
Proof.
  rewrite frame_bytes_header. unfold written. cbn. by rewrite app_nil_r.
Qed.

Lemma frame_bytes_opcode opcode payload :
  0 <= opcode < 2 ^ 32 ->
  Uint32 (take 4 (frame_bytes opcode payload)) = opcode.
Proof.
  intros H. unfold frame_bytes.
  rewrite take_app_length' by done.
  rewrite <- (app_nil_r (PutUint32 _)), Uint32_PutUint32.
  by apply Z.mod_small.
Qed.

Lemma frame_bytes_length payload opcode :
  Z.of_nat (length payload) < 2 ^ 32 ->
  Uint32 (take 4 (drop 4 (frame_bytes opcode payload))) = Z.of_nat (length payload).
Proof.
  intros H. unfold frame_bytes.
  rewrite drop_app_length' by done.
  rewrite take_app_length' by done.
  rewrite <- (app_nil_r (PutUint32 _)), Uint32_PutUint32.
  apply Z.mod_small. lia.
Qed.

(** C3, as the code has it. A frame written by [send] carries the opcode
    and the payload length little-endian in its eight header bytes, and
    [receive], reading these bytes as they were written, returns the exact
    payload.  The payload is shorter than 2^32 bytes; [receive] returns the
    payload alone. *)
Theorem send_receive_roundtrip (opcode : Z) (payload : list byte)
    (m m' : Machine) (id id' : nat) (c c' : Conn) (rest : list RxEvent) :
  0 <= opcode < 2 ^ 32 ->
  Z.of_nat (length payload) < 2 ^ 32 ->
  conn (client m) = Some id ->
  conns m !! id = Some c ->
  can_write 2 c ->
  conn (client m') = Some id' ->
  conns m' !! id' = Some c' ->
  closed c' = false ->
  rx c' = Chunk (frame_bytes opcode payload) :: rest ->
  ∃ m1 evs m2 evs',
    run (send opcode payload) m = Some (None, m1, evs)
    ∧ written evs = frame_bytes opcode payload
    ∧ Uint32 (take 4 (written evs)) = opcode
    ∧ Uint32 (take 4 (drop 4 (written evs))) = Z.of_nat (length payload)
    ∧ drop 8 (written evs) = payload
    ∧ run receive m' = Some (inl payload, m2, evs').
Proof.
  intros Hop Hlen Hid Hc Hw Hid' Hc' Hcl' Hrx.
  do 4 eexists.
  split; [by eapply run_send_ok|].
  rewrite written_send.
  split; [done|]. split; [by apply frame_bytes_opcode|].
  split; [by apply frame_bytes_length|].
  split; [by rewrite frame_bytes_header, drop_app_length'|].
  by eapply run_receive_frame.
Qed.

(** Payloads of 2^32 bytes and more: the length field wraps. *)
Lemma send_length_wraps (opcode : Z) (payload : list byte) :
  Z.of_nat (length payload) = 2 ^ 32 ->
  Uint32 (take 4 (drop 4 (header_of opcode payload))) = 0.
Proof. intros H. by rewrite header_length_field, H. Qed.

(** C3, as stated, fails: [receive] returns no opcode, so no reading of its
    result recovers the opcode of every frame (the frames with opcodes 0
    and 1 and an empty payload are received alike). *)
Lemma receive_drops_opcode :
  ¬ ∃ opcode_of : list byte + error -> Z,
      ∀ opcode payload r m evs,
        0 <= opcode < 2 ^ 32 ->
        run receive (receiving [Chunk (frame_bytes opcode payload)])
          = Some (r, m, evs) ->
        opcode_of r = opcode.
Proof.
  intros [opcode_of H].
  assert (H0 : opcode_of (inl []) = 0).
  { eapply (H 0 []); [lia|]. vm_compute. reflexivity. }
  assert (H1 : opcode_of (inl []) = 1).
  { eapply (H 1 []); [lia|]. vm_compute. reflexivity. }
  congruence.
Qed.

(** C4. A frame with the five-byte payload [hello] that arrives in two
    segments.  Cut inside the header: [receive] reports an empty payload.
    Cut inside the payload: it reports the first segment padded with
    zeros.  Neither case returns an error. *)
Theorem receive_short_read_unreported :
  let data := frame_bytes 1 (String.list_byte_of_string "hello") in
  (fst <$> run receive (receiving [Chunk (take 4 data); Chunk (drop 4 data)])
     = Some (inl [],
             set_conns [peer [Chunk (drop 4 data)]]
               (receiving [Chunk (take 4 data); Chunk (drop 4 data)])))
  ∧ (fst <$> run receive (receiving [Chunk (take 10 data); Chunk (drop 10 data)])
     = Some (inl (String.list_byte_of_string "he" ++ [x00; x00; x00]),
             set_conns [peer [Chunk (drop 10 data)]]
               (receiving [Chunk (take 10 data); Chunk (drop 10 data)]))).
Proof. split; vm_compute; reflexivity. Qed.

(** A failing [Read] is returned as the error, after at most two reads. *)
Lemma receive_errors_surfaced m r m' evs :
  run receive m = Some (r, m', evs) ->
  (length evs <= 2)%nat
  ∧ ((∃ id n, EvRead id n None ∈ evs) -> r = inr ErrConn).
Proof.
  intros H. apply receive_inv in H as (_ & _ & _ & _ & _ & id & _ & H).
  destruct r as [data|e].
  - destruct H as (n & g1 & g2 & ->). split; [simpl; lia|].
    intros (i & k & Hin).
    apply elem_of_cons in Hin as [?|Hin]; [done|].
    apply elem_of_cons in Hin as [?|Hin]; [done|].
    by apply elem_of_nil in Hin.
  - destruct H as [-> [->|(n & g1 & ->)]]; split; simpl; auto.
Qed.

(** C5. While the session is disconnected, [SetActivity] returns the
    not-logged-in error and [ClearActivity] returns success; neither
    changes the machine nor touches a socket. *)
Theorem activity_calls_while_disconnected (activity : Activity) (m : Machine) :
  logged (client m) = false ->
  run (SetActivity activity) m = Some (Some ErrNotLoggedIn, m, [])
  ∧ run ClearActivity m = Some (None, m, []).
Proof.
  intros H. split.
  - unfold SetActivity. cbn -[send nonce]. by rewrite H.
  - unfold ClearActivity. cbn -[send nonce]. by rewrite H.
Qed.

(** C7. [Login] against a peer that accepts the connection and closes
    without a reply: the handshake error is returned, the session stays
    disconnected, and it still holds the connection, which nobody
    closed. *)
Theorem Login_handshake_failure_keeps_endpoint :
  match run Login (boot discord_silent) with
  | Some (r, m, evs) =>
      r = Some (ErrWrap "handshake failed" ErrConn)
      ∧ logged (client m) = false
      ∧ conn (client m) = Some 0%nat
      ∧ closed <$> conns m !! 0%nat = Some false
      ∧ count is_close evs = 0%nat
  | None => False
  end.
Proof. vm_compute. by repeat split. Qed.

(** ** The nonce *)

Lemma digit_hi_hex (b : byte) : is_hex (digit_at (Z.shiftr (byte_to_Z b) 4)) = true.
Proof. by destruct b. Qed.

Lemma digit_lo_hex (b : byte) : is_hex (digit_at (Z.land (byte_to_Z b) 15)) = true.
Proof. by destruct b. Qed.

Lemma digit_version (b : byte) :
  digit_at (Z.shiftr (byte_to_Z (byte_of_Z (Z.lor (Z.land (byte_to_Z b) 15) 64))) 4)
  = "4"%char.
Proof. by destruct b. Qed.

Lemma nonce_text_pattern (buf : list byte) :
  length buf = 16%nat ->
  string_matches false nonce_pattern (nonce_text buf) = true.
Proof.
  intros H.
  do 16 (destruct buf as [|? buf]; [done|]). destruct buf; [|done]. clear H.
  unfold nonce_text, hex, hex_byte.
  cbn -[is_hex digit_at byte_to_Z byte_of_Z Z.shiftr Z.land Z.lor].
  rewrite digit_version.
  cbv -[is_hex digit_at byte_to_Z byte_of_Z Z.shiftr Z.land Z.lor].
  rewrite !digit_hi_hex, !digit_lo_hex. reflexivity.
Qed.

Lemma run_nonce m :
  run nonce m =
  Some (nonce_text (entropy (world m) <$> seq (rand_pos m) 16),
        set_rand_pos (rand_pos m + 16) m, []).
Proof. reflexivity. Qed.

Lemma run_SetActivity m activity :
  logged (client m) = true ->
  run (SetActivity activity) m =
  run (send 1 (command_payload m (Some (payload_of activity))))
      (set_rand_pos (rand_pos m + 16) m).
Proof.
  intros H. unfold SetActivity, mbind, Prog_bind.
  cbn -[send nonce_text seq]. rewrite H. cbn -[send nonce_text seq].
  fold (command_payload m (Some (payload_of activity))).
  by destruct (run (send _ _) _) as [[[r m'] evs]|].
Qed.

Lemma run_ClearActivity m :
  logged (client m) = true ->
  run ClearActivity m =
  run (send 1 (command_payload m None)) (set_rand_pos (rand_pos m + 16) m).
Proof.
  intros H. unfold ClearActivity, mbind, Prog_bind.
  cbn -[send nonce_text seq]. rewrite H. cbn -[send nonce_text seq].
  fold (command_payload m None).
  by destruct (run (send _ _) _) as [[[r m'] evs]|].
Qed.

(** C8, as the code has it. [nonce] formats the next 16 bytes of the random
    source as five groups of lower-case hexadecimal digits, 8-4-4-4-12, the
    first digit of the third group being 4; the variant digit is any
    hexadecimal digit.  Every command frame ([SetActivity],
    [ClearActivity] on a connected session) carries the nonce of the bytes
    the source gives next, and the source has moved on by 16 bytes when the
    frame is sent. *)
Theorem nonce_format_and_freshness (m : Machine) :
  let buf := entropy (world m) <$> seq (rand_pos m) 16 in
  run nonce m = Some (nonce_text buf, set_rand_pos (rand_pos m + 16) m, [])
  ∧ string_matches false nonce_pattern (nonce_text buf) = true
  ∧ (logged (client m) = true ->
     (∀ activity,
        run (SetActivity activity) m =
        run (send 1 (command_payload m (Some (payload_of activity))))
            (set_rand_pos (rand_pos m + 16) m))
     ∧ run ClearActivity m =
       run (send 1 (command_payload m None)) (set_rand_pos (rand_pos m + 16) m)).
Proof.
  intros buf. split; [apply run_nonce|]. split.
  - apply nonce_text_pattern. unfold buf. by rewrite length_fmap, length_seq.
  - intros H. split; [intros activity; by apply run_SetActivity|].
    by apply run_ClearActivity.
Qed.

(** C8, as stated, fails: the variant digit is not fixed.  From an all-zero
    source it is [0], from an all-ones source it is [f], and neither nonce
    matches the pattern of a version 4 UUID. *)
Lemma nonce_variant_not_fixed :
  (fst ∘ fst) <$> run nonce (boot discord_at_3)
    = Some "00000000-0000-4000-0000-000000000000"
  ∧ string_matches true nonce_pattern "00000000-0000-4000-0000-000000000000" = false
  ∧ nonce_text (replicate 16 xff) = "ffffffff-ffff-4fff-ffff-ffffffffffff"
  ∧ string_matches true nonce_pattern "ffffffff-ffff-4fff-ffff-ffffffffffff" = false.
Proof. by vm_compute. Qed.

(** ** The activity encoder *)

Lemma assets_keys (a : payloadAssets) :
  json_keys (marshal_payloadAssets a) =
  present (pLargeImage a) "large_image" ++ present (pLargeText a) "large_text"
  ++ present (pSmallImage a) "small_image" ++ present (pSmallText a) "small_text".
Proof.
  unfold json_keys, marshal_payloadAssets, field_string_omitempty, present.
  cbn. by repeat case_decide.
Qed.

Lemma assets_get (a : payloadAssets) :
  let j := marshal_payloadAssets a in
  json_get "large_image" j = (if decide (pLargeImage a = "") then None else Some (JStr (pLargeImage a)))
  ∧ json_get "large_text" j = (if decide (pLargeText a = "") then None else Some (JStr (pLargeText a)))
  ∧ json_get "small_image" j = (if decide (pSmallImage a = "") then None else Some (JStr (pSmallImage a)))
  ∧ json_get "small_text" j = (if decide (pSmallText a = "") then None else Some (JStr (pSmallText a))).
Proof.
  unfold json_get, marshal_payloadAssets, field_string_omitempty.
  cbn. by repeat case_decide.
Qed.

Lemma encode_keys (a : Activity) :
  json_keys (encode a) =
  ["type"] ++ present (Details a) "details" ++ present (State a) "state"
  ++ ["assets"]
  ++ match Timestamps_ a with None => [] | Some _ => ["timestamps"] end
  ++ match Buttons a with [] => [] | _ => ["buttons"] end.
Proof.
  unfold json_keys, encode, marshal_payloadActivity, field_string_omitempty, present.
  destruct a as [ty de st li lt si sx [ts|] [|b bs]]; cbn; repeat case_decide; done.
Qed.

Lemma encode_get (a : Activity) :
  json_get "details" (encode a) = (if decide (Details a = "") then None else Some (JStr (Details a)))
  ∧ json_get "state" (encode a) = (if decide (State a = "") then None else Some (JStr (State a)))
  ∧ json_get "assets" (encode a) = Some (marshal_payloadAssets (pAssets (payload_of a)))
  ∧ json_get "timestamps" (encode a) =
      marshal_payloadTimestamps <$> payload_timestamps (Timestamps_ a).
Proof.
  unfold json_get, encode, marshal_payloadActivity, field_string_omitempty.
  destruct a as [ty de st li lt si sx [ts|] [|b bs]];
    cbn -[marshal_payloadAssets marshal_payloadTimestamps];
    repeat case_decide; done.
Qed.

(** The text fields: a key is in the payload exactly when its field is not
    empty, and then carries the field. *)
Lemma encode_omits_empty_strings (a : Activity) :
  let assets := marshal_payloadAssets (pAssets (payload_of a)) in
  json_get "details" (encode a) = (if decide (Details a = "") then None else Some (JStr (Details a)))
  ∧ json_get "state" (encode a) = (if decide (State a = "") then None else Some (JStr (State a)))
  ∧ json_get "assets" (encode a) = Some assets
  ∧ json_get "large_image" assets = (if decide (LargeImage a = "") then None else Some (JStr (LargeImage a)))
  ∧ json_get "large_text" assets = (if decide (LargeText a = "") then None else Some (JStr (LargeText a)))
  ∧ json_get "small_image" assets = (if decide (SmallImage a = "") then None else Some (JStr (SmallImage a)))
  ∧ json_get "small_text" assets = (if decide (SmallText a = "") then None else Some (JStr (SmallText a))).
Proof.
  intros assets.
  destruct (encode_get a) as (H1 & H2 & H3 & _).
  destruct (assets_get (pAssets (payload_of a))) as (H4 & H5 & H6 & H7).
  by repeat split.
Qed.

(** C1. A description whose four image and text fields are empty: the
    payload still has the key [assets], with an empty object. *)
Theorem encode_sends_empty_assets :
  let activity :=
    {| Type_ := ActivityTypeListening; Details := "Song"; State := "by Artist";
       LargeImage := ""; LargeText := ""; SmallImage := ""; SmallText := "";
       Timestamps_ := None; Buttons := [] |} in
  json_keys (encode activity) = ["type"; "details"; "state"; "assets"]
  ∧ json_get "assets" (encode activity) = Some (JObj []).
Proof. by vm_compute. Qed.

(** C2, as the code has it. The key [timestamps] is absent when the
    description's [Timestamps] pointer is nil.  With an end instant only,
    the object under [timestamps] holds [end] alone: the instant's
    milliseconds since the epoch, converted to [uint64]; likewise [start]
    alone with a start instant only. *)
Theorem encode_timestamps (a : Activity) :
  (Timestamps_ a = None -> json_get "timestamps" (encode a) = None)
  ∧ (∀ e, Timestamps_ a = Some {| Start := None; End_ := Some e |} ->
       json_get "timestamps" (encode a)
       = Some (JObj [("end", JNum (uint64 (UnixMilli e)))])
       ∧ 0 <= uint64 (UnixMilli e) < 2 ^ 64)
  ∧ (∀ s, Timestamps_ a = Some {| Start := Some s; End_ := None |} ->
       json_get "timestamps" (encode a)
       = Some (JObj [("start", JNum (uint64 (UnixMilli s)))])
       ∧ 0 <= uint64 (UnixMilli s) < 2 ^ 64).
Proof.
  destruct (encode_get a) as (_ & _ & _ & H). rewrite H.
  split; [by intros ->|].
  split; intros t ->; (split; [done | apply Z.mod_pos_bound; lia]).
Qed.

(** C2, as stated, fails: a description with a [Timestamps] value that holds
    neither instant has no start and no end, and its payload has the key
    [timestamps], with an empty object. *)
Lemma encode_empty_timestamps_sent :
  let activity :=
    {| Type_ := ActivityTypeListening; Details := "Song"; State := "by Artist";
       LargeImage := ""; LargeText := ""; SmallImage := ""; SmallText := "";
       Timestamps_ := Some {| Start := None; End_ := None |}; Buttons := [] |} in
  start_time activity = None
  ∧ end_time_of activity = None
  ∧ json_get "timestamps" (encode activity) = Some (JObj []).
Proof. by vm_compute. Qed.

(** ** The mutex *)

Lemma NoLock_bind {A B} (p : Prog A) (k : A -> Prog B) :
  NoLock p -> (∀ a, NoLock (k a)) -> NoLock (bind p k).
Proof.
  intros Hp Hk. induction p as [a | R a c IH]; simpl; [done|].
  destruct Hp as [Ha Hc]. split; [done|]. intros r. by apply IH.
Qed.

Ltac no_lock :=
  repeat first
    [ progress intros
    | apply NoLock_bind
    | split; [reflexivity|]
    | exact I
    | match goal with
      | |- NoLock (match ?x with _ => _ end) => destruct x
      | |- NoLock (if ?x then _ else _) => destruct x
      end
    | progress simpl ].

Lemma NoLock_send opcode payload : NoLock (send opcode payload).
Proof. unfold send, mbind, Prog_bind. no_lock. Qed.

Lemma NoLock_receive : NoLock receive.
Proof. unfold receive, mbind, Prog_bind. no_lock. Qed.

Lemma NoLock_nonce : NoLock nonce.
Proof. unfold nonce, mbind, Prog_bind. no_lock. Qed.

Lemma NoLock_dial_indices tmpDir n i next :
  NoLock next -> NoLock (dial_indices tmpDir n i next).
Proof.
  intros H. revert i. induction n as [|n IH]; intros i; simpl; [done|].
  split; [done|]. intros [c|]; simpl; auto.
Qed.

Lemma NoLock_dial_dirs tmpDirs : NoLock (dial_dirs tmpDirs).
Proof.
  induction tmpDirs as [|d ds IH]; [done|]. cbn [dial_dirs].
  case_decide; [done|]. by apply NoLock_dial_indices.
Qed.

Lemma NoLock_openSocket : NoLock openSocket.
Proof.
  unfold openSocket, mbind, Prog_bind. cbn -[dial_dirs].
  repeat (split; [done|]; intros ?). apply NoLock_dial_dirs.
Qed.

Lemma NoLock_Login : NoLock Login.
Proof.
  unfold Login, mbind, Prog_bind. cbn -[openSocket send receive].
  split; [done|]. intros [|]; [done|].
  apply NoLock_bind; [apply NoLock_openSocket|].
  intros [c|e]; [|done].
  cbn -[send receive]. do 3 (split; [done|]; intros ?).
  apply NoLock_bind; [apply NoLock_send|].
  intros [e|]; [done|].
  apply NoLock_bind; [apply NoLock_receive|].
  by intros [data|e].
Qed.

Lemma NoLock_Logout : NoLock Logout.
Proof. unfold Logout, mbind, Prog_bind. no_lock. Qed.

Lemma NoLock_SetActivity activity : NoLock (SetActivity activity).
Proof.
  unfold SetActivity, mbind, Prog_bind. cbn -[send].
  split; [done|]. intros [|]; [|done].
  cbn -[send]. do 3 (split; [done|]; intros ?). apply NoLock_send.
Qed.

Lemma NoLock_ClearActivity : NoLock ClearActivity.
Proof.
  unfold ClearActivity, mbind, Prog_bind. cbn -[send].
  split; [done|]. intros [|]; [|done].
  cbn -[send]. do 3 (split; [done|]; intros ?). apply NoLock_send.
Qed.

(** Compositional rules for the lock discipline. *)
Lemma disciplined_mono {A} (Q Q' : bool -> A -> Prop) inside (p : Prog A) :
  (∀ b a, Q b a -> Q' b a) ->
  disciplined Q inside p -> disciplined Q' inside p.
Proof.
  intros HQ. revert inside.
  induction p as [a | R a c IH]; intros inside; simpl; [apply HQ|].
  destruct a; simpl; intros [? H]; (split; [done|]); try (intros r); by apply IH.
Qed.

Lemma disciplined_bind {A B} (Q : bool -> B -> Prop) inside
    (p : Prog A) (k : A -> Prog B) :
  disciplined (fun b a => disciplined Q b (k a)) inside p ->
  disciplined Q inside (bind p k).
Proof.
  revert inside.
  induction p as [a | R a c IH]; intros inside; simpl; [done|].
  destruct a; simpl; intros [? H]; (split; [done|]); try (intros r); by apply IH.
Qed.

Lemma disciplined_NoLock {A} (Q : bool -> A -> Prop) (p : Prog A) :
  NoLock p -> (∀ a, Q true a) -> disciplined Q true p.
Proof.
  intros Hp HQ.
  induction p as [a | R a c IH]; simpl; [done|].
  destruct Hp as [Ha Hc].
  destruct a; simpl in *; try done; (split; [done|]); intros r; by apply IH.
Qed.

Lemma disciplined_with_lock {A} (body : Prog A) :
  NoLock body -> disciplined released false (with_lock body).
Proof.
  intros H. unfold with_lock, mbind, Prog_bind. simpl. split; [done|].
  apply disciplined_bind, disciplined_NoLock; [done|].
  intros a. simpl. done.
Qed.

Lemma NoLock_Connect_body : NoLock Connect_body.
Proof.
  unfold Connect_body, mbind, Prog_bind. cbn -[Login].
  split; [done|]. intros [|]; [done|].
  apply NoLock_bind; [apply NoLock_Login|]. by intros [e|].
Qed.

Lemma NoLock_Disconnect_body : NoLock Disconnect_body.
Proof.
  unfold Disconnect_body, mbind, Prog_bind. cbn -[Logout].
  split; [done|]. intros [|]; [|done].
  apply NoLock_bind; [apply NoLock_Logout|]. done.
Qed.

Lemma NoLock_ClearPresence_body : NoLock ClearPresence_body.
Proof.
  unfold ClearPresence_body, mbind, Prog_bind. cbn -[ClearActivity].
  split; [done|]. intros [|]; [|done].
  apply NoLock_bind; [apply NoLock_ClearActivity|]. done.
Qed.

Lemma NoLock_artwork_of track : NoLock (artwork_of track).
Proof. unfold artwork_of, mbind, Prog_bind. no_lock. Qed.

Lemma NoLock_UpdatePresence_body track state :
  NoLock (UpdatePresence_body track state).
Proof.
  unfold UpdatePresence_body, mbind, Prog_bind. cbn -[SetActivity artwork_of].
  split; [done|]. intros [|]; [|done].
  apply NoLock_bind; [apply NoLock_artwork_of|]. intros artworkURL.
  cbn -[SetActivity]. split; [done|]. intros endTime.
  apply NoLock_bind; [apply NoLock_SetActivity|].
  intros [e|]; cbn; [done|]. split; [done|]. intros _. by case_decide.
Qed.

Lemma disciplined_call (c : BridgeCall) : disciplined released false (call c).
Proof.
  destruct c as [| | |track state]; unfold call.
  - unfold mbind, Prog_bind. apply disciplined_bind.
    eapply disciplined_mono;
      [|apply disciplined_with_lock, NoLock_Connect_body].
    by intros b a ->.
  - apply disciplined_with_lock, NoLock_Disconnect_body.
  - apply disciplined_with_lock, NoLock_ClearPresence_body.
  - apply disciplined_with_lock, NoLock_UpdatePresence_body.
Qed.

Lemma disciplined_goroutine (calls : list BridgeCall) :
  disciplined released false (goroutine calls).
Proof.
  induction calls as [|c calls IH]; [done|].
  cbn [goroutine]. unfold mbind, Prog_bind. apply disciplined_bind.
  eapply disciplined_mono; [|apply disciplined_call].
  by intros b a ->.
Qed.

Lemma sections_app holder h h' :
  sections holder (h ++ h') = sections holder h ≫= fun s => sections s h'.
Proof.
  revert holder. induction h as [|[t e] h IH]; intros holder; [done|].
  cbn [app sections].
  destruct holder as [t'|], e; try done; try (case_decide; [|done]); apply IH.
Qed.

Lemma sections_inside t evs :
  Forall (fun e => is_lock_event e = false) evs ->
  sections (Some t) (pair t <$> evs) = Some (Some t).
Proof.
  induction 1 as [|e evs He _ IH]; [done|].
  rewrite fmap_cons. cbn [sections].
  destruct e; try done; by rewrite decide_True.
Qed.

(** Actions other than [Lock] and [Unlock] leave the mutex alone and show
    no lock event. *)
Lemma perform_other {R} (a : Action R) m r m' evs :
  is_lock_action a = false ->
  perform a m = Some (r, m', evs) ->
  mu (bridge m') = mu (bridge m)
  ∧ Forall (fun e => is_lock_event e = false) evs.
Proof.
  intros Ha H.
  destruct a; try discriminate Ha; cbn in H;
    repeat case_match; simplify_eq; cbn; auto.
Qed.

Lemma step_coherent t cfg cfg' :
  coherent cfg -> step t cfg = Some cfg' -> coherent cfg'.
Proof.
  intros (holder & Hsec & Hmu & Hth) Hstep. unfold step in Hstep.
  destruct (threads cfg !! t) as [[|R a k]|] eqn:Ht; [done| |done].
  destruct (perform a (machine cfg)) as [[[r m'] evs]|] eqn:Hp; [|done].
  simplify_eq. unfold coherent. cbn [threads machine history].
  specialize (Hth _ _ Ht) as Hp0.
  assert (Hlt : (t < length (threads cfg))%nat) by by eapply lookup_lt_Some.
  assert (Hother : ∀ holder' : option nat,
            (∀ t', t' ≠ t -> bool_decide (holder' = Some t')
                             = bool_decide (holder = Some t')) ->
            disciplined released (bool_decide (holder' = Some t)) (k r) ->
            ∀ t' p, <[t := k r]> (threads cfg) !! t' = Some p ->
              disciplined released (bool_decide (holder' = Some t')) p).
  { intros holder' Hsame Hk t' p Hl. destruct (decide (t = t')) as [<-|Hne].
    - rewrite list_lookup_insert_eq in Hl by done. by simplify_eq.
    - rewrite list_lookup_insert_ne in Hl by done.
      rewrite Hsame by done. by apply Hth. }
  destruct (is_lock_action a) eqn:Ha.
  - destruct a; try discriminate Ha; cbn in Hp0, Hp;
      destruct Hp0 as [Hin Hk];
      apply bool_decide_eq_false in Hin || apply bool_decide_eq_true in Hin.
    + (* Lock *)
      destruct (mu (bridge (machine cfg))) eqn:Hm; [done|]. simplify_eq.
      assert (holder = None) as ->.
      { destruct holder as [n|]; [|done]. symmetry in Hmu.
        apply bool_decide_eq_false in Hmu. by destruct Hmu. }
      exists (Some t). rewrite sections_app, Hsec. cbn. split; [done|].
      split; [done|]. apply Hother.
      * intros t' Hne. rewrite !bool_decide_eq_false_2; congruence.
      * by rewrite bool_decide_eq_true_2.
    + (* Unlock *)
      subst holder.
      destruct (mu (bridge (machine cfg))) eqn:Hm; [|done]. simplify_eq.
      exists None. rewrite sections_app, Hsec. cbn.
      rewrite decide_True by done. split; [done|]. split; [done|].
      apply Hother.
      * intros t' Hne. rewrite !bool_decide_eq_false_2; congruence.
      * by rewrite bool_decide_eq_false_2.
  - destruct (perform_other a _ _ _ _ Ha Hp) as [Hmu' Hev].
    assert (bool_decide (holder = Some t) = true ∧ ∀ r, disciplined released true (k r))
      as [Hin Hk].
    { destruct a; try discriminate Ha; exact Hp0. }
    apply bool_decide_eq_true in Hin. subst holder.
    exists (Some t). rewrite sections_app, Hsec. cbn.
    rewrite sections_inside by done. split; [done|].
    split; [by rewrite Hmu', Hmu|]. apply Hother; [done|].
    rewrite bool_decide_eq_true_2 by done. apply Hk.
Qed.

Lemma exec_coherent schedule cfg cfg' :
  coherent cfg -> exec schedule cfg = Some cfg' -> coherent cfg'.
Proof.
  revert cfg. induction schedule as [|t schedule IH]; intros cfg Hc H.
  - by simplify_eq/=.
  - cbn in H. destruct (step t cfg) as [cfg1|] eqn:Hs; [|done].
    eapply IH; [|done]. by eapply step_coherent.
Qed.

(** Events of a program that takes no lock. *)
Lemma NoLock_events {A} (p : Prog A) m a m' evs :
  NoLock p ->
  run p m = Some (a, m', evs) ->
  Forall (fun e => is_lock_event e = false) evs.
Proof.
  revert m evs. induction p as [x | R act c IH]; intros m evs Hp H.
  - cbn in H. by simplify_eq.
  - destruct Hp as [Ha Hc]. cbn in H.
    destruct (perform act m) as [[[r m1] evs1]|] eqn:Hperf; [|done].
    destruct (run (c r) m1) as [[[x m2] evs2]|] eqn:Hrun; [|done].
    simplify_eq. apply Forall_app. split.
    + by destruct (perform_other act _ _ _ _ Ha Hperf).
    + by eapply IH.
Qed.

Lemma run_with_lock {A} (body : Prog A) m r m' evs :
  NoLock body ->
  run (with_lock body) m = Some (r, m', evs) ->
  ∃ inner,
    evs = EvLock :: inner ++ [EvUnlock]
    ∧ Forall (fun e => is_lock_event e = false) inner.
Proof.
  intros Hb H. unfold with_lock, mbind, Prog_bind in H.
  apply run_bind_Some in H as (x & m1 & evs1 & evs2 & H1 & H2 & ->).
  cbn in H1. destruct (mu (bridge m)); [done|]. simplify_eq.
  apply run_bind_Some in H2 as (a & m2 & inner & evs3 & Hbody & H3 & ->).
  cbn in H3. destruct (mu (bridge m2)); [|done]. simplify_eq.
  exists inner. split; [done|]. by eapply NoLock_events.
Qed.

Lemma run_call (c : BridgeCall) m r m' evs :
  run (call c) m = Some (r, m', evs) ->
  ∃ inner,
    evs = EvLock :: inner ++ [EvUnlock]
    ∧ Forall (fun e => is_lock_event e = false) inner.
Proof.
  destruct c as [| | |track state]; unfold call; intros H.
  - unfold mbind, Prog_bind in H.
    apply run_bind_Some in H as (x & m1 & evs1 & evs2 & H1 & H2 & ->).
    cbn in H2. simplify_eq. rewrite app_nil_r.
    eapply run_with_lock; [apply NoLock_Connect_body|done].
  - eapply run_with_lock; [apply NoLock_Disconnect_body|done].
  - eapply run_with_lock; [apply NoLock_ClearPresence_body|done].
  - eapply run_with_lock; [apply NoLock_UpdatePresence_body|done].
Qed.

(** C10, as the code has it. The lock is the Bridge's: the client's
    [Login], [Logout], [SetActivity] and [ClearActivity] take none, and the
    Bridge method around each ([Connect], [Disconnect], [UpdatePresence],
    [ClearPresence]) locks first and unlocks last with everything it does
    in between.  So in every execution of goroutines that reach the client
    through the Bridge only, the history is a sequence of critical
    sections, each the events of one goroutine. *)
Theorem bridge_calls_are_critical_sections
    (callss : list (list BridgeCall)) (m : Machine) :
  NoLock Login ∧ NoLock Logout ∧ (∀ a, NoLock (SetActivity a)) ∧ NoLock ClearActivity
  ∧ (∀ c r m' evs,
       run (call c) m = Some (r, m', evs) ->
       ∃ inner,
         evs = EvLock :: inner ++ [EvUnlock]
         ∧ Forall (fun e => is_lock_event e = false) inner)
  ∧ (∀ schedule h,
       mu (bridge m) = false ->
       history_after schedule
         {| threads := goroutine <$> callss; machine := m; history := [] |}
         = Some h ->
       critical_sections h).
Proof.
  split; [apply NoLock_Login|]. split; [apply NoLock_Logout|].
  split; [apply NoLock_SetActivity|]. split; [apply NoLock_ClearActivity|].
  split; [intros c r m' evs; apply run_call|].
  intros schedule h Hmu H. unfold history_after in H.
  destruct (exec schedule _) as [cfg'|] eqn:He; [|done].
  cbn in H. simplify_eq.
  apply exec_coherent in He as (holder & Hsec & _); [by exists holder|].
  exists None. cbn [history machine threads]. repeat split; [by rewrite Hmu|].
  intros t p Hp. rewrite list_lookup_fmap in Hp.
  destruct (callss !! t) as [calls|]; [|done]. cbn in Hp. simplify_eq.
  apply disciplined_goroutine.
Qed.

(** C10, as stated, fails: two goroutines that call [ClearActivity] on the
    shared client directly.  The header of the second frame is written
    between the header and the payload of the first, and no lock is
    taken. *)
Lemma client_calls_interleave :
  match history_after interleaving_schedule two_direct_callers with
  | Some h =>
      fst <$> h = [0; 1; 0; 1]%nat
      ∧ Forall (fun te => is_write te.2 = true) h
      ∧ ¬ critical_sections h
  | None => False
  end.
Proof.
  vm_compute. split; [done|]. split; [by repeat constructor|].
  by intros [x Hx].
Qed.

(** ** The statements at concrete inputs *)

(** The scenario of the design document: nothing set in the environment,
    Discord bound at index 3 under [/tmp]. *)
Example openSocket_scenario :
  run openSocket (boot discord_at_3)
  = Some (inl 0%nat, dialed (peer [Chunk ready_reply]) (boot discord_at_3),
          [EvDial "/tmp/discord-ipc-0" false; EvDial "/tmp/discord-ipc-1" false;
           EvDial "/tmp/discord-ipc-2" false; EvDial "/tmp/discord-ipc-3" true]).
Proof. vm_compute. reflexivity. Qed.

Lemma send_receive_roundtrip_witness :
  ∃ m1 evs m2 evs',
    run (send 1 hello) (receiving []) = Some (None, m1, evs)
    ∧ written evs = frame_bytes 1 hello
    ∧ Uint32 (take 4 (written evs)) = 1
    ∧ Uint32 (take 4 (drop 4 (written evs))) = Z.of_nat (length hello)
    ∧ drop 8 (written evs) = hello
    ∧ run receive (receiving [Chunk (frame_bytes 1 hello)])
      = Some (inl hello, m2, evs').
Proof.
  apply (send_receive_roundtrip 1 hello (receiving [])
           (receiving [Chunk (frame_bytes 1 hello)]) 0 0 (peer [])
           (peer [Chunk (frame_bytes 1 hello)]) []).
  - vm_compute. split; congruence.
  - vm_compute. reflexivity.
  - reflexivity.
  - reflexivity.
  - split; [reflexivity | exact I].
  - reflexivity.
  - reflexivity.
  - reflexivity.
  - reflexivity.
Defined.

Lemma activity_calls_while_disconnected_witness :
  run (SetActivity (listening_until new_year_2024)) (boot discord_at_3)
    = Some (Some ErrNotLoggedIn, boot discord_at_3, [])
  ∧ run ClearActivity (boot discord_at_3) = Some (None, boot discord_at_3, []).
Proof.
  apply (activity_calls_while_disconnected (listening_until new_year_2024)
           (boot discord_at_3)).
  reflexivity.
Defined.

Lemma Login_idempotent_witness :
  run Login (after_login discord_at_3) = Some (None, after_login discord_at_3, [])
  ∧ run (Login;; Login) (boot discord_at_3)
    = Some (None, after_login discord_at_3, login_events)
  ∧ count is_connect login_events = 1%nat
  ∧ count is_write login_events = 2%nat
  ∧ count is_read login_events = 2%nat.
Proof.
  split.
  - apply (proj1 (Login_idempotent (after_login discord_at_3))).
    vm_compute. reflexivity.
  - apply (proj2 (Login_idempotent (boot discord_at_3))).
    + reflexivity.
    + vm_compute. reflexivity.
Defined.

Lemma nonce_format_and_freshness_witness :
  run (SetActivity listening) (receiving [])
    = run (send 1 (command_payload (receiving []) (Some (payload_of listening))))
          (set_rand_pos 16 (receiving []))
  ∧ run ClearActivity (receiving [])
    = run (send 1 (command_payload (receiving []) None))
          (set_rand_pos 16 (receiving [])).
Proof.
  destruct (proj2 (proj2 (nonce_format_and_freshness (receiving []))) eq_refl)
    as [Hset Hclear].
  split; [apply Hset | apply Hclear].
Defined.

Lemma encode_timestamps_witness :
  json_get "timestamps" (encode listening) = None
  ∧ (json_get "timestamps" (encode (listening_until new_year_2024))
       = Some (JObj [("end", JNum (uint64 (UnixMilli new_year_2024)))])
     ∧ 0 <= uint64 (UnixMilli new_year_2024) < 2 ^ 64)
  ∧ (json_get "timestamps" (encode (listening_since new_year_2024))
       = Some (JObj [("start", JNum (uint64 (UnixMilli new_year_2024)))])
     ∧ 0 <= uint64 (UnixMilli new_year_2024) < 2 ^ 64).
Proof.
  split; [|split].
  - apply (proj1 (encode_timestamps listening)). reflexivity.
  - apply (proj1 (proj2 (encode_timestamps (listening_until new_year_2024)))
             new_year_2024).
    reflexivity.
  - apply (proj2 (proj2 (encode_timestamps (listening_since new_year_2024)))
             new_year_2024).
    reflexivity.
Defined.

Lemma bridge_calls_are_critical_sections_witness :
  (∃ inner,
     connect_events = EvLock :: inner ++ [EvUnlock]
     ∧ Forall (fun e => is_lock_event e = false) inner)
  ∧ critical_sections two_goroutines_history.
Proof.
  pose proof (bridge_calls_are_critical_sections
                [ [CallConnect; CallClearPresence];
                  [CallUpdatePresence song StatePlaying; CallDisconnect] ]
                (boot discord_at_3)) as (_ & _ & _ & _ & Hcall & Hsched).
  split.
  - apply (Hcall CallConnect tt after_connect connect_events).
    vm_compute. reflexivity.
  - apply (Hsched two_goroutines_schedule two_goroutines_history).
    + reflexivity.
    + vm_compute. reflexivity.
Defined.

(** The round trip at the sizes of the design document: 0, 1 and four
    kilobytes. *)
Example roundtrip_sizes :
  Forall (fun payload =>
            (fst ∘ fst) <$> run receive (receiving [Chunk (frame_bytes 1 payload)])
            = Some (inl payload))
         [[]; ["a"%byte]; kilobytes].
Proof.
  repeat constructor.
  all: erewrite run_receive_frame; [reflexivity | | reflexivity ..].
  all: vm_compute; reflexivity.
Qed.

(** A second [Login] after a failed handshake dials again: the session now
    holds the second connection, and the first one is still open with no
    reference left to it. *)
Example Login_retry_leaks :
  match run (Login;; Login) (boot discord_silent) with
  | Some (_, m, evs) =>
      conn (client m) = Some 1%nat
      ∧ closed <$> conns m = [false; false]
      ∧ count is_close evs = 0%nat
  | None => False
  end.
Proof. vm_compute. by repeat split. Qed.

(** * Properties of the rest of the program *)

(** ** The client *)

Lemma send_returns opcode payload m id :
  conn (client m) = Some id ->
  ∃ e m' evs, run (send opcode payload) m = Some (e, m', evs).
Proof.
  intros Hid. unfold send. cbn -[conn_write PutUint32]. rewrite Hid.
  cbn -[conn_write PutUint32].
  destruct (conns m !! id) as [c|] eqn:Hc; cbn -[conn_write PutUint32];
    [|eauto].
  destruct (conn_write _ c) as [[e|] c1]; cbn -[conn_write PutUint32]; [eauto|].
  rewrite Hid. cbn -[conn_write PutUint32].
  rewrite list_lookup_insert_eq by (by eapply lookup_lt_Some).
  destruct (conn_write payload c1) as [[e|] c2]; cbn; eauto.
Qed.

Lemma receive_returns m id :
  conn (client m) = Some id ->
  ∃ r m' evs, run receive m = Some (r, m', evs).
Proof.
  intros Hid. unfold receive. cbn -[conn_read Uint32 fill]. rewrite Hid.
  cbn -[conn_read Uint32 fill].
  destruct (conns m !! id) as [c|] eqn:Hc; cbn -[conn_read Uint32 fill];
    [|eauto].
  destruct (conn_read 8 c) as [[g|] c1]; cbn -[conn_read Uint32 fill]; [|eauto].
  rewrite Hid. cbn -[conn_read Uint32 fill].
  rewrite list_lookup_insert_eq by (by eapply lookup_lt_Some).
  destruct (conn_read _ c1) as [[g2|] c2]; cbn; eauto.
Qed.

Lemma Login_returns m :
  session_ok m ->
  ∃ e m' evs,
    run Login m = Some (e, m', evs)
    ∧ session_ok m'
    ∧ bridge m' = bridge m
    ∧ (e = None -> logged (client m') = true)
    ∧ (e ≠ None -> logged (client m') = logged (client m)).
Proof.
  intros Hok. destruct (logged (client m)) eqn:Hl.
  { exists None, m, []. rewrite run_Login_logged by done. by repeat split. }
  rewrite run_Login by done.
  destruct (probe _ _) as [evs0 [c|]].
  2: { do 3 eexists. split; [done|]. repeat split; try done. }
  cbv zeta.
  set (m1 := set_client _ _).
  destruct (send_returns 0 (handshake_payload m) m1 (length (conns m)) eq_refl)
    as (e & m2 & evs2 & Hs).
  rewrite Hs. apply send_inv in Hs as (Hc2 & _ & _ & Hb2 & id & Hid & _).
  assert (Hconn2 : conn (client m2) = Some (length (conns m))) by by rewrite Hc2.
  destruct e as [e|].
  { do 3 eexists. split; [done|]. unfold session_ok.
    rewrite Hconn2, Hc2, Hb2. repeat split; eauto. done. }
  destruct (receive_returns m2 _ Hconn2) as (r & m3 & evs3 & Hr).
  rewrite Hr. apply receive_inv in Hr as (Hc3 & _ & _ & Hb3 & _).
  destruct r as [data|e]; do 3 eexists; (split; [done|]); unfold session_ok; cbn;
    rewrite ?Hc3, ?Hb3, ?Hc2, ?Hb2; cbn; repeat split; eauto; done.
Qed.

Lemma activity_call_inv (p : option payloadActivity) m e m' evs :
  logged (client m) = true ->
  run (send 1 (command_payload m p)) (set_rand_pos (rand_pos m + 16) m)
    = Some (e, m', evs) ->
  client m' = client m ∧ bridge m' = bridge m ∧ world m' = world m
  ∧ rand_pos m' = (rand_pos m + 16)%nat
  ∧ Forall (fun ev => is_write ev = true) evs
  ∧ (length evs <= 2)%nat
  ∧ (e = None -> written evs = frame_bytes 1 (command_payload m p)).
Proof.
  intros Hl H.
  apply send_inv in H as (Hc & Hw & Hr & Hb & id & Hid & He).
  repeat split; try done.
  - destruct e as [e|]; [destruct He as [_ [->| ->]]|destruct He as [-> _]];
      by repeat constructor.
  - destruct e as [e|]; [destruct He as [_ [->| ->]]|destruct He as [-> _]];
      simpl; lia.
  - intros ->. destruct He as [-> _]. apply written_send.
Qed.

Lemma logged_out_activity_calls activity m :
  logged (client m) = false ->
  run (SetActivity activity) m = Some (Some ErrNotLoggedIn, m, [])
  ∧ run ClearActivity m = Some (None, m, []).
Proof.
  intros H. split.
  - unfold SetActivity. cbn -[send nonce]. by rewrite H.
  - unfold ClearActivity. cbn -[send nonce]. by rewrite H.
Qed.



Lemma Logout_returns m :
  ∃ m' evs,
    run Logout m = Some (tt, m', evs)
    ∧ conn (client m') = None
    ∧ logged (client m') = false
    ∧ clientID (client m') = clientID (client m)
    ∧ bridge m' = bridge m.
Proof.
  unfold Logout. cbn.
  destruct (conn (client m)) as [id|] eqn:Hid; cbn.
  - rewrite Hid. cbn. destruct (conns m !! id) as [c|]; cbn; eauto 10.
  - eauto 10.
Qed.




(** X2. [Logout] from any state returns with the session disconnected and
    without a connection; the connection it held is closed, with a single
    [Close]; a second [Logout] does nothing, and [SetActivity] afterwards
    reports the session as not logged in. *)
Theorem Logout_disconnects (m : Machine) :
  ∃ m1 evs,
    run Logout m = Some (tt, m1, evs)
    ∧ conn (client m1) = None
    ∧ logged (client m1) = false
    ∧ match conn (client m) with
      | Some id =>
          evs = [EvClose id]
          ∧ conns m1 = alter conn_close id (conns m)
      | None => evs = [] ∧ conns m1 = conns m
      end
    ∧ run Logout m1 = Some (tt, m1, [])
    ∧ ∀ activity,
        run (SetActivity activity) m1 = Some (Some ErrNotLoggedIn, m1, []).
Proof.
  assert (Hrest : ∀ m1, conn (client m1) = None -> logged (client m1) = false ->
            run Logout m1 = Some (tt, m1, [])
            ∧ ∀ activity,
                run (SetActivity activity) m1 = Some (Some ErrNotLoggedIn, m1, [])).
  { intros [w r cs [cid co lo] b] Hc Hl. cbn in Hc, Hl. subst. split; [done|].
    intros activity. by apply logged_out_activity_calls. }
  unfold Logout. cbn.
  destruct (conn (client m)) as [id|] eqn:Hid; cbn.
  - rewrite Hid. cbn. destruct (conns m !! id) as [c|] eqn:Hc; cbn.
    + do 2 eexists. split; [done|]. split; [done|]. split; [done|]. split.
      * split; [done|]. cbn. apply list_eq. intros j.
        destruct (decide (id = j)) as [<-|Hne].
        -- rewrite list_lookup_insert_eq by (by eapply lookup_lt_Some).
           by rewrite list_lookup_alter_eq, Hc.
        -- by rewrite list_lookup_insert_ne, list_lookup_alter_ne.
      * by apply Hrest.
    + do 2 eexists. split; [done|]. split; [done|]. split; [done|]. split.
      * split; [done|]. cbn. apply list_eq. intros j.
        destruct (decide (id = j)) as [<-|Hne].
        -- by rewrite list_lookup_alter_eq, Hc.
        -- by rewrite list_lookup_alter_ne.
      * by apply Hrest.
  - do 2 eexists. split; [done|]. split; [done|]. split; [done|]. split; [done|].
    by apply Hrest.
Qed.



Lemma probe_all_refuse socks paths :
  Forall (fun p => socks !! p = None) paths ->
  probe socks paths = (dial_failed <$> paths, None).
Proof.
  induction 1 as [|p paths Hp _ IH]; [done|]. cbn. by rewrite Hp, IH.
Qed.

Lemma length_paths_under dirs :
  length (paths_under dirs) = (10 * length (filter (fun d => d ≠ "") dirs))%nat.
Proof.
  unfold paths_under.
  induction (filter (fun d => d ≠ "") dirs) as [|d ds IH]; [done|].
  rewrite bind_cons, length_app, IH, length_fmap, length_seq. cbn [length]. lia.
Qed.

(** X4. [Login] when no candidate socket accepts: every candidate is
    dialed once, in order, at most fifty dials in all; the error wraps the
    not-found error; the machine is as before. *)
Theorem Login_without_listener (m : Machine) :
  logged (client m) = false ->
  Forall (fun p => sockets (world m) !! p = None) (candidates (world m)) ->
  run Login m =
    Some (Some (ErrWrap "failed to connect to Discord" ErrSocketNotFound),
          m, dial_failed <$> candidates (world m))
  ∧ (length (candidates (world m)) <= 50)%nat.
Proof.
  intros Hl Hall. split.
  - rewrite run_Login by done. by rewrite probe_all_refuse.
  - unfold candidates. rewrite length_paths_under.
    pose proof (length_filter (fun d => d ≠ "") (base_dirs (world m))) as H.
    change (length (base_dirs (world m))) with 5%nat in H. lia.
Qed.

Lemma Login_without_listener_witness :
  run Login (boot no_discord) =
    Some (Some (ErrWrap "failed to connect to Discord" ErrSocketNotFound),
          boot no_discord, dial_failed <$> candidates (world (boot no_discord)))
  ∧ (length (candidates (world (boot no_discord))) <= 50)%nat.
Proof.
  apply (Login_without_listener (boot no_discord)).
  - reflexivity.
  - vm_compute. repeat constructor.
Defined.

Lemma probe_first socks pre p post c :
  Forall (fun q => socks !! q = None) pre ->
  socks !! p = Some c ->
  probe socks (pre ++ p :: post) = ((dial_failed <$> pre) ++ [EvDial p true], Some c).
Proof.
  intros Hpre Hp. rewrite probe_app, (probe_all_refuse _ _ Hpre).
  cbn. by rewrite Hp.
Qed.

(** X5. A [Login] that succeeds from a disconnected session shows, after
    the refused dials, one accepted dial, the header and the payload of
    one opcode-0 frame whose document is the handshake with version [1]
    and the client id, and two reads; the session then is logged in on the
    connection just opened, and nothing of the Bridge has changed. *)
Theorem Login_handshake_trace (m m1 : Machine) (evs : list Event) :
  logged (client m) = false ->
  run Login m = Some (None, m1, evs) ->
  ∃ pre p n g1 g2,
    evs = (dial_failed <$> pre)
          ++ [EvDial p true;
              EvWrite (length (conns m)) (header_of 0 (handshake_payload m)) true;
              EvWrite (length (conns m)) (handshake_payload m) true;
              EvRead (length (conns m)) 8 (Some g1);
              EvRead (length (conns m)) n (Some g2)]
    ∧ written evs = frame_bytes 0 (handshake_payload m)
    ∧ handshake_payload m =
        json_text (world m)
          (JObj [("v", JStr "1"); ("client_id", JStr (clientID (client m)))])
    ∧ client m1 = {| clientID := clientID (client m);
                     conn := Some (length (conns m)); logged := true |}
    ∧ bridge m1 = bridge m.
Proof.
  intros Hl H. rewrite run_Login in H by done.
  destruct (probe _ _) as [evs0 [c|]] eqn:Ep; [|done].
  apply probe_found in Ep as (pre & p & post & _ & _ & _ & ->).
  cbv zeta in H.
  destruct (run (send _ _) _) as [[[[e|] m2] evs2]|] eqn:Es; [done| |done].
  apply send_inv in Es as (Hc2 & _ & _ & Hb2 & id & Hid & -> & _).
  destruct (run receive m2) as [[[[data|e] m3] evs3]|] eqn:Er; [|done|done].
  apply receive_inv in Er as (Hc3 & _ & _ & Hb3 & _ & id' & Hid' & n & g1 & g2 & ->).
  rewrite Hc2 in Hid'. cbn in Hid, Hid'. simplify_eq.
  exists pre, p, n, g1, g2. split; [by rewrite <- app_assoc|]. split.
  - rewrite frame_bytes_header. unfold written. rewrite !bind_app.
    assert (E : ∀ l : list string, (dial_failed <$> l) ≫=
              (fun e => match e with EvWrite _ q true => q | _ => [] end) = [])
      by (induction l; [done|by cbn]).
    rewrite E. cbn -[header_of]. by rewrite !app_nil_r.
  - split; [done|]. cbn. rewrite Hc3, Hc2, Hb3, Hb2. cbn. done.
Qed.

Lemma Login_handshake_trace_witness :
  ∃ pre p n g1 g2,
    login_events
      = (dial_failed <$> pre)
        ++ [EvDial p true;
            EvWrite 0 (header_of 0 (handshake_payload (boot discord_at_3))) true;
            EvWrite 0 (handshake_payload (boot discord_at_3)) true;
            EvRead 0 8 (Some g1);
            EvRead 0 n (Some g2)]
    ∧ written login_events = frame_bytes 0 (handshake_payload (boot discord_at_3))
    ∧ handshake_payload (boot discord_at_3) =
        compact_text (JObj [("v", JStr "1"); ("client_id", JStr DiscordAppID)])
    ∧ client (after_login discord_at_3)
      = {| clientID := DiscordAppID; conn := Some 0%nat; logged := true |}
    ∧ bridge (after_login discord_at_3) = bridge (boot discord_at_3).
Proof.
  apply (Login_handshake_trace (boot discord_at_3) (after_login discord_at_3)
           login_events).
  - reflexivity.
  - vm_compute. reflexivity.
Defined.

(** X6. [Login] does not look at the reply: when the first candidate that
    accepts takes the two writes and answers with any frame at all, of any
    opcode and any payload, [Login] returns success and the session is
    logged in. *)
Theorem Login_accepts_any_reply (m : Machine) (pre post : list string)
    (p : string) (c : Conn) (opcode : Z) (reply : list byte)
    (rest : list RxEvent) :
  logged (client m) = false ->
  candidates (world m) = pre ++ p :: post ->
  Forall (fun q => sockets (world m) !! q = None) pre ->
  sockets (world m) !! p = Some c ->
  can_write 2 c ->
  rx c = Chunk (frame_bytes opcode reply) :: rest ->
  Z.of_nat (length reply) < 2 ^ 32 ->
  ∃ m1 evs,
    run Login m = Some (None, m1, evs) ∧ logged (client m1) = true.
Proof.
  intros Hl Hcand Hpre Hp Hw Hrx Hlen.
  rewrite run_Login, Hcand, (probe_first _ _ _ _ _ Hpre Hp) by done.
  cbv zeta. set (id := length (conns m)). set (m1 := set_client _ _).
  assert (Hc1 : conns m1 !! id = Some c).
  { cbn. unfold id. by rewrite lookup_app_r, Nat.sub_diag by done. }
  rewrite (run_send_ok 0 (handshake_payload m) m1 id c eq_refl Hc1 Hw).
  set (c2 := wrote _ _). set (m2 := set_conns _ _).
  assert (Hc2 : conns m2 !! id = Some c2).
  { cbn. apply list_lookup_insert_eq. rewrite length_app. cbn. unfold id. lia. }
  rewrite (run_receive_frame opcode reply m2 id c2 rest Hlen eq_refl Hc2).
  - eauto.
  - by destruct Hw.
  - done.
Qed.

Lemma Login_accepts_any_reply_witness :
  ∃ m1 evs,
    run Login (boot discord_at_3) = Some (None, m1, evs)
    ∧ logged (client m1) = true.
Proof.
  apply (Login_accepts_any_reply (boot discord_at_3)
           ["/tmp/discord-ipc-0"; "/tmp/discord-ipc-1"; "/tmp/discord-ipc-2"]
           ["/tmp/discord-ipc-4"; "/tmp/discord-ipc-5"; "/tmp/discord-ipc-6";
            "/tmp/discord-ipc-7"; "/tmp/discord-ipc-8"; "/tmp/discord-ipc-9"]
           "/tmp/discord-ipc-3" (peer [Chunk ready_reply]) 1
           (String.list_byte_of_string "{}") []).
  - reflexivity.
  - vm_compute. reflexivity.
  - vm_compute. repeat constructor.
  - vm_compute. reflexivity.
  - split; [reflexivity|exact I].
  - reflexivity.
  - vm_compute. reflexivity.
Defined.

(** X7. [SetActivity] and [ClearActivity] only ever write: at most two
    [Write] calls, no read, no dial, no close.  Whatever the writes return,
    the session is as before, still logged in after a write error; and
    when the call returns nil on a logged-in session, the bytes written are
    exactly one opcode-1 frame around the command document. *)
Theorem activity_calls_only_write (p : option Activity) (m : Machine)
    (e : option error) (m' : Machine) (evs : list Event) :
  run (match p with
       | Some activity => SetActivity activity
       | None => ClearActivity
       end) m = Some (e, m', evs) ->
  client m' = client m
  ∧ bridge m' = bridge m
  ∧ Forall (fun ev => is_write ev = true) evs
  ∧ (length evs <= 2)%nat
  ∧ (logged (client m) = true -> e = None ->
     written evs = frame_bytes 1 (command_payload m (payload_of <$> p))).
Proof.
  intros H. destruct (logged (client m)) eqn:Hl.
  - assert (H' : run (send 1 (command_payload m (payload_of <$> p)))
                   (set_rand_pos (rand_pos m + 16) m) = Some (e, m', evs)).
    { destruct p as [activity|]; cbn [fmap option_fmap option_map];
        [rewrite <- run_SetActivity | rewrite <- run_ClearActivity]; done. }
    apply activity_call_inv in H' as (? & ? & _ & _ & ? & ? & ?); [|done].
    by repeat split.
  - destruct (logged_out_activity_calls listening m Hl) as [_ Hc].
    destruct p as [activity|].
    + destruct (logged_out_activity_calls activity m Hl) as [Hs _].
      rewrite Hs in H. simplify_eq. repeat split; try done; cbn; lia.
    + rewrite Hc in H. simplify_eq. repeat split; try done; cbn; lia.
Qed.

Lemma activity_calls_only_write_witness :
  ∃ e m' evs,
    run (SetActivity listening) (receiving []) = Some (e, m', evs)
    ∧ client m' = client (receiving [])
    ∧ bridge m' = bridge (receiving [])
    ∧ Forall (fun ev => is_write ev = true) evs
    ∧ (length evs <= 2)%nat
    ∧ (logged (client (receiving [])) = true -> e = None ->
       written evs
       = frame_bytes 1 (command_payload (receiving [])
                          (payload_of <$> Some listening))).
Proof.
  eexists _, _, _. split; [vm_compute; reflexivity|].
  apply (activity_calls_only_write (Some listening) (receiving [])).
  vm_compute. reflexivity.
Defined.

Lemma conn_read_prefix (front more : list byte) rest c :
  closed c = false ->
  rx c = Chunk (front ++ more) :: rest ->
  front ≠ [] ->
  conn_read (length front) c = (Some front, with_rx (leftover more rest) c).
Proof.
  intros Hc Hrx Hf.
  rewrite (conn_read_chunk _ (front ++ more) rest c Hc Hrx).
  - rewrite take_app_length, drop_app_length, length_app. f_equal. f_equal.
    destruct more as [|b more]; cbn [leftover].
    + rewrite decide_False by (cbn; lia). done.
    + rewrite decide_True by (cbn; lia). done.
  - destruct front; [done|cbn; lia].
  - by destruct front.
Qed.

Lemma run_receive_prefix opcode payload more m id c rest :
  Z.of_nat (length payload) < 2 ^ 32 ->
  conn (client m) = Some id ->
  conns m !! id = Some c ->
  closed c = false ->
  rx c = Chunk (frame_bytes opcode payload ++ more) :: rest ->
  run receive m =
  Some (inl payload,
        set_conns (<[id := with_rx (leftover more rest) c]> (conns m)) m,
        [EvRead id 8 (Some (header_of opcode payload));
         EvRead id (length payload) (Some payload)]).
Proof.
  intros Hlen Hid Hc Hcl Hrx.
  rewrite frame_bytes_header, <- app_assoc in Hrx.
  assert (Hlt : (id < length (conns m))%nat) by by eapply lookup_lt_Some.
  pose proof (length_header_of opcode payload) as Hh.
  assert (E1 : conn_read 8 c =
               (Some (header_of opcode payload),
                with_rx (leftover (payload ++ more) rest) c)).
  { rewrite <- Hh. by apply conn_read_prefix. }
  unfold receive. cbn -[conn_read header_of Uint32 fill].
  rewrite Hid. cbn -[conn_read header_of Uint32 fill].
  rewrite Hc, E1. cbn -[conn_read header_of Uint32 fill].
  rewrite Hid. cbn -[conn_read header_of Uint32 fill].
  rewrite list_lookup_insert_eq by done.
  assert (Hf : fill 8 (header_of opcode payload) = header_of opcode payload)
    by (rewrite <- Hh at 1; apply fill_exact).
  rewrite Hf, header_length_field.
  rewrite Z.mod_small, Nat2Z.id by lia.
  destruct payload as [|b payload].
  - rewrite conn_read_empty by done.
    cbn. by rewrite list_insert_insert_eq.
  - assert (Hne : leftover ((b :: payload) ++ more) rest
                  = Chunk ((b :: payload) ++ more) :: rest) by done.
    rewrite Hne.
    rewrite (conn_read_prefix (b :: payload) more rest) by done.
    cbn -[fill length]. by rewrite fill_exact, list_insert_insert_eq.
Qed.

(** X8. [receive] takes exactly one frame off the stream: when a segment
    holds a whole frame followed by more bytes, the payload is returned
    and the bytes after the frame stay for the next read.  So two frames
    that arrive in one segment are received one after the other. *)
Theorem receive_two_frames (op1 op2 : Z) (p1 p2 : list byte) (m : Machine)
    (id : nat) (c : Conn) (rest : list RxEvent) :
  Z.of_nat (length p1) < 2 ^ 32 ->
  Z.of_nat (length p2) < 2 ^ 32 ->
  conn (client m) = Some id ->
  conns m !! id = Some c ->
  closed c = false ->
  rx c = Chunk (frame_bytes op1 p1 ++ frame_bytes op2 p2) :: rest ->
  run (r1 ← receive; r2 ← receive; Ret (r1, r2)) m =
  Some ((inl p1, inl p2),
        set_conns (<[id := with_rx rest c]> (conns m)) m,
        [EvRead id 8 (Some (header_of op1 p1));
         EvRead id (length p1) (Some p1);
         EvRead id 8 (Some (header_of op2 p2));
         EvRead id (length p2) (Some p2)]).
Proof.
  intros H1 H2 Hid Hc Hcl Hrx.
  assert (Hlt : (id < length (conns m))%nat) by by eapply lookup_lt_Some.
  unfold mbind, Prog_bind. rewrite run_bind.
  rewrite (run_receive_prefix op1 p1 (frame_bytes op2 p2) m id c rest) by done.
  assert (Hl : leftover (frame_bytes op2 p2) rest
               = Chunk (frame_bytes op2 p2) :: rest) by done.
  rewrite Hl, run_bind.
  rewrite (run_receive_frame op2 p2 _ id
             (with_rx (Chunk (frame_bytes op2 p2) :: rest) c) rest);
    try done.
  - cbn. by rewrite list_insert_insert_eq.
  - cbn. by apply list_lookup_insert_eq.
Qed.

Lemma receive_two_frames_witness :
  run (r1 ← receive; r2 ← receive; Ret (r1, r2))
      (receiving [Chunk (frame_bytes 1 hello ++ frame_bytes 2 kilobytes)]) =
  Some ((inl hello, inl kilobytes),
        set_conns
          (<[0%nat := with_rx []
               (peer [Chunk (frame_bytes 1 hello ++ frame_bytes 2 kilobytes)])]>
             (conns (receiving
                       [Chunk (frame_bytes 1 hello ++ frame_bytes 2 kilobytes)])))
          (receiving [Chunk (frame_bytes 1 hello ++ frame_bytes 2 kilobytes)]),
        [EvRead 0 8 (Some (header_of 1 hello));
         EvRead 0 (length hello) (Some hello);
         EvRead 0 8 (Some (header_of 2 kilobytes));
         EvRead 0 (length kilobytes) (Some kilobytes)]).
Proof.
  apply (receive_two_frames 1 2 hello kilobytes
           (receiving [Chunk (frame_bytes 1 hello ++ frame_bytes 2 kilobytes)])
           0 (peer [Chunk (frame_bytes 1 hello ++ frame_bytes 2 kilobytes)]) []).
  - vm_compute. reflexivity.
  - vm_compute. reflexivity.
  - reflexivity.
  - reflexivity.
  - reflexivity.
  - reflexivity.
Defined.

(** X9. Buttons: the key [buttons] is absent for a description without
    buttons; otherwise it holds one document a button, in the order given
    and however many there are, each with the keys [label] and [url] of
    its non-empty fields. *)
Theorem encode_buttons (a : Activity) :
  json_get "buttons" (encode a) =
  match Buttons a with
  | [] => None
  | _ => Some (JArr (button_document <$> Buttons a))
  end.
Proof.
  unfold json_get, encode, marshal_payloadActivity, field_string_omitempty.
  destruct a as [ty de st li lt si sx [ts|] [|b bs]];
    cbn -[marshal_payloadAssets marshal_payloadTimestamps marshal_payloadButton];
    repeat case_decide; try done.
  all: cbn; do 3 f_equal; rewrite <- list_fmap_compose; by apply list_fmap_ext.
Qed.



Lemma send_conns opcode payload m e m' evs id :
  run (send opcode payload) m = Some (e, m', evs) ->
  conn (client m) = Some id ->
  (∃ c', conns m' = <[id := c']> (conns m))
  ∧ Forall (fun ev => is_write ev = true) evs.
Proof.
  unfold send. cbn -[conn_write PutUint32]. intros H Hid. rewrite Hid in H.
  cbn -[conn_write PutUint32] in H.
  destruct (conns m !! id) as [c|] eqn:Hc; cbn -[conn_write PutUint32] in H.
  2: { simplify_eq. split; [|by repeat constructor]. exists (peer []).
       symmetry. apply list_insert_ge. by apply lookup_ge_None. }
  assert (Hlt : (id < length (conns m))%nat) by by eapply lookup_lt_Some.
  destruct (conn_write _ c) as [[e1|] c1]; cbn -[conn_write PutUint32] in H.
  { simplify_eq. split; [eauto|by repeat constructor]. }
  rewrite Hid in H. cbn -[conn_write PutUint32] in H.
  rewrite list_lookup_insert_eq in H by done.
  destruct (conn_write payload c1) as [[e2|] c2]; cbn in H; simplify_eq;
    rewrite list_insert_insert_eq; (split; [eauto|by repeat constructor]).
Qed.

Lemma receive_conns m r m' evs id :
  run receive m = Some (r, m', evs) ->
  conn (client m) = Some id ->
  (∃ c', conns m' = <[id := c']> (conns m))
  ∧ Forall (fun ev => is_read ev = true) evs.
Proof.
  unfold receive. cbn -[conn_read Uint32 fill]. intros H Hid. rewrite Hid in H.
  cbn -[conn_read Uint32 fill] in H.
  destruct (conns m !! id) as [c|] eqn:Hc; cbn -[conn_read Uint32 fill] in H.
  2: { simplify_eq. split; [|by repeat constructor]. exists (peer []).
       symmetry. apply list_insert_ge. by apply lookup_ge_None. }
  assert (Hlt : (id < length (conns m))%nat) by by eapply lookup_lt_Some.
  destruct (conn_read 8 c) as [[g1|] c1]; cbn -[conn_read Uint32 fill] in H.
  2: { simplify_eq. split; [eauto|by repeat constructor]. }
  rewrite Hid in H. cbn -[conn_read Uint32 fill] in H.
  rewrite list_lookup_insert_eq in H by done.
  destruct (conn_read _ c1) as [[g2|] c2]; cbn in H; simplify_eq;
    rewrite list_insert_insert_eq; (split; [eauto|by repeat constructor]).
Qed.

Lemma count_none (f : Event -> bool) evs :
  Forall (fun e => f e = false) evs -> count f evs = 0%nat.
Proof.
  unfold count. induction 1 as [|e evs He _ IH]; [done|].
  rewrite filter_cons, decide_False by congruence. done.
Qed.

Lemma writes_are_not (f : Event -> bool) evs :
  (∀ c p ok, f (EvWrite c p ok) = false) ->
  Forall (fun ev => is_write ev = true) evs -> count f evs = 0%nat.
Proof.
  intros Hf H. apply count_none. eapply Forall_impl; [done|].
  intros [] ?; simplify_eq/=; auto.
Qed.

Lemma reads_are_not (f : Event -> bool) evs :
  (∀ c n g, f (EvRead c n g) = false) ->
  Forall (fun ev => is_read ev = true) evs -> count f evs = 0%nat.
Proof.
  intros Hf H. apply count_none. eapply Forall_impl; [done|].
  intros [] ?; simplify_eq/=; auto.
Qed.

Lemma Login_conns m r m1 evs :
  logged (client m) = false ->
  run Login m = Some (r, m1, evs) ->
  (m1 = m ∧ count is_connect evs = 0%nat)
  ∨ (∃ c', conns m1 = conns m ++ [c']
       ∧ conn (client m1) = Some (length (conns m))
       ∧ clientID (client m1) = clientID (client m)
       ∧ count is_connect evs = 1%nat
       ∧ count is_close evs = 0%nat).
Proof.
  intros Hl H. rewrite run_Login in H by done.
  destruct (probe _ _) as [evs0 [c|]] eqn:Ep.
  2: { apply probe_not_found in Ep as [_ ->]. simplify_eq. left.
       split; [done|]. by apply count_dial_failed. }
  apply probe_found in Ep as (pre & p & post & _ & _ & _ & ->).
  cbv zeta in H. right.
  set (id := length (conns m)) in *. set (m0 := set_client _ _) in H.
  assert (Happ : ∀ c' : Conn, <[id := c']> (conns m ++ [c]) = conns m ++ [c']).
  { intros c'. unfold id. rewrite insert_app_r_alt, Nat.sub_diag by done. done. }
  destruct (run (send _ _) _) as [[[e m2] evs2]|] eqn:Es; [|done].
  pose proof (send_inv _ _ _ _ _ _ Es) as (Hc2 & _).
  apply send_conns with (id := id) in Es as [[c2 Hcs2] Hw]; [|done].
  cbn in Hcs2. rewrite Happ in Hcs2.
  assert (Hev0 : ∀ tl, count is_connect (((dial_failed <$> pre) ++ [EvDial p true]) ++ tl)
                       = S (count is_connect tl)
                 ∧ count is_close (((dial_failed <$> pre) ++ [EvDial p true]) ++ tl)
                       = count is_close tl).
  { intros tl. rewrite !count_app, !count_dial_failed by done. done. }
  destruct e as [e|].
  { simplify_eq. exists c2. rewrite Hc2. repeat split; try done.
    - rewrite (proj1 (Hev0 _)), writes_are_not; done.
    - rewrite (proj2 (Hev0 _)), writes_are_not; done. }
  destruct (run receive m2) as [[[r3 m3] evs3]|] eqn:Er; [|done].
  pose proof (receive_inv _ _ _ _ Er) as (Hc3 & _).
  apply receive_conns with (id := id) in Er as [[c3 Hcs3] Hr];
    [|by rewrite Hc2].
  rewrite Hcs2, <- (Happ c2), list_insert_insert_eq, Happ in Hcs3.
  assert (Hcount : count is_connect (((dial_failed <$> pre) ++ [EvDial p true])
                                       ++ evs2 ++ evs3) = 1%nat
                   ∧ count is_close (((dial_failed <$> pre) ++ [EvDial p true])
                                       ++ evs2 ++ evs3) = 0%nat).
  { rewrite (proj1 (Hev0 _)), (proj2 (Hev0 _)), !count_app.
    rewrite (writes_are_not is_connect evs2), (writes_are_not is_close evs2),
      (reads_are_not is_connect evs3), (reads_are_not is_close evs3); done. }
  destruct Hcount as [Hn1 Hn0].
  destruct r3 as [data|e3]; simplify_eq; exists c3; cbn;
    rewrite ?Hc3, ?Hc2; by repeat split.
Qed.

(** X11. [Logout] after a [Login] on a new session, whatever [Login]
    returned: the client is as it was before [Login], and the connection
    that [Login] opened, if it opened one, is closed.  Older connections
    are not touched. *)
Theorem Login_then_Logout_releases (m m1 : Machine) (r : option error)
    (evs : list Event) :
  logged (client m) = false ->
  conn (client m) = None ->
  run Login m = Some (r, m1, evs) ->
  ∃ m2 evs2,
    run Logout m1 = Some (tt, m2, evs2)
    ∧ client m2 = client m
    ∧ ((conns m2 = conns m ∧ evs2 = [] ∧ count is_connect evs = 0%nat)
       ∨ (∃ c, conns m2 = conns m ++ [c] ∧ closed c = true
            ∧ evs2 = [EvClose (length (conns m))]
            ∧ count is_connect evs = 1%nat)).
Proof.
  intros Hl Hn H.
  destruct (Logout_disconnects m1) as (m2 & evs2 & HL & Hc2 & Hl2 & Hcase & _).
  destruct (Logout_returns m1) as (m2' & evs2' & HL' & _ & _ & Hid2 & _).
  rewrite HL in HL'. simplify_eq.
  exists m2', evs2'. split; [done|].
  destruct (Login_conns m r m1 evs Hl H)
    as [[-> Hcnt]|(c' & Hcs & Hconn & Hcid & Hcnt & _)].
  - rewrite Hn in Hcase. destruct Hcase as [-> Hcs]. split.
    + destruct (client m2') as [a b c], (client m) as [a' b' c'].
      cbn in *. by subst.
    + left. by repeat split.
  - rewrite Hconn in Hcase. destruct Hcase as [-> Hcs2]. split.
    + destruct (client m2') as [a b c], (client m) as [a' b' c''].
      cbn in *. congruence.
    + right. exists (conn_close c'). repeat split; try done.
      rewrite Hcs2, Hcs. rewrite alter_app_r_alt, Nat.sub_diag by done. done.
Qed.

Lemma Login_then_Logout_releases_witness :
  ∃ m2 evs2,
    run Logout (after_login discord_at_3) = Some (tt, m2, evs2)
    ∧ client m2 = client (boot discord_at_3)
    ∧ ((conns m2 = conns (boot discord_at_3) ∧ evs2 = []
        ∧ count is_connect login_events = 0%nat)
       ∨ (∃ c, conns m2 = conns (boot discord_at_3) ++ [c] ∧ closed c = true
            ∧ evs2 = [EvClose (length (conns (boot discord_at_3)))]
            ∧ count is_connect login_events = 1%nat)).
Proof.
  apply (Login_then_Logout_releases (boot discord_at_3)
           (after_login discord_at_3) None login_events).
  - reflexivity.
  - reflexivity.
  - vm_compute. reflexivity.
Defined.

(** ** The Bridge *)










(** X13. The Bridge's methods look at [connected] first: while it is
    false, [Disconnect], [ClearPresence] and [UpdatePresence] take and
    release the mutex and do nothing else (no write, no search for a
    cover, nothing cached); while it is true, [Connect] does the same and
    reports success. *)
Theorem bridge_methods_guarded (m : Machine) :
  mu (bridge m) = false ->
  (connected (bridge m) = false ->
     run Disconnect m = Some (tt, m, [EvLock; EvUnlock])
     ∧ run ClearPresence m = Some (tt, m, [EvLock; EvUnlock])
     ∧ ∀ track state,
         run (UpdatePresence track state) m = Some (tt, m, [EvLock; EvUnlock]))
  ∧ (connected (bridge m) = true ->
     run Connect m = Some (None, m, [EvLock; EvUnlock])).
Proof.
  intros Hmu. destruct m as [w rp cs cl [ca co mu0]]. cbn in Hmu. subst.
  split; intros Hc; cbn in Hc; subst; [|done].
  split; [done|]. split; [done|]. by intros track state.
Qed.

Lemma bridge_methods_guarded_witness :
  (connected (bridge (boot discord_at_3)) = false ->
     run Disconnect (boot discord_at_3)
       = Some (tt, boot discord_at_3, [EvLock; EvUnlock])
     ∧ run ClearPresence (boot discord_at_3)
       = Some (tt, boot discord_at_3, [EvLock; EvUnlock])
     ∧ ∀ track state,
         run (UpdatePresence track state) (boot discord_at_3)
         = Some (tt, boot discord_at_3, [EvLock; EvUnlock]))
  ∧ (connected (bridge (boot discord_at_3)) = true ->
     run Connect (boot discord_at_3)
       = Some (None, boot discord_at_3, [EvLock; EvUnlock])).
Proof.
  apply (bridge_methods_guarded (boot discord_at_3)). reflexivity.
Defined.

Lemma run_artwork_of (track : Track) (m : Machine) :
  run (artwork_of track) m =
  Some (match cache (bridge m) !! cacheKey (Artist track) (Album track) with
        | Some u => (u, m)
        | None =>
            match fetch (world m) (Artist track) (Album track) with
            | Some u =>
                (u, set_bridge
                      (with_cache (<[cacheKey (Artist track) (Album track) := u]>
                                     (cache (bridge m))) (bridge m)) m)
            | None => ("", m)
            end
        end, []).
Proof.
  unfold artwork_of, mbind, Prog_bind. cbn.
  destruct (cache (bridge m) !! _) as [u|]; cbn; [done|].
  by destruct (fetch (world m) _ _) as [u|].
Qed.

(** X14. The cover of a track is searched at most once: [UpdatePresence]'s
    lookup answers from the cache when the key is there; on a miss it
    searches, remembers a found URL and returns it, and with nothing found
    it returns the empty URL and remembers nothing, so that the next
    update searches again.  Once a URL is in the cache the lookup answers
    it whatever the search would say now, and changes nothing. *)
Theorem artwork_searched_once (track : Track) (m : Machine) :
  let key := cacheKey (Artist track) (Album track) in
  ∃ url m1,
    run (artwork_of track) m = Some (url, m1, [])
    ∧ match cache (bridge m) !! key,
            fetch (world m) (Artist track) (Album track) with
      | Some u, _ => url = u ∧ m1 = m
      | None, Some u =>
          url = u
          ∧ m1 = set_bridge (with_cache (<[key := u]> (cache (bridge m)))
                               (bridge m)) m
      | None, None => url = "" ∧ m1 = m
      end
    ∧ (is_Some (cache (bridge m1) !! key) ->
       ∀ m2, cache (bridge m2) = cache (bridge m1) ->
         run (artwork_of track) m2 = Some (url, m2, [])).
Proof.
  intros key. unfold artwork_of, mbind, Prog_bind. cbn. fold key.
  destruct (cache (bridge m) !! key) as [u|] eqn:Hk; cbn.
  { exists u, m. repeat split. intros _ m2 H2. by rewrite H2, Hk. }
  destruct (fetch (world m) _ _) as [u|] eqn:Hf; cbn.
  - do 2 eexists. repeat split. intros _ m2 H2. rewrite H2. cbn.
    by rewrite lookup_insert_eq.
  - exists "", m. repeat split. rewrite Hk. by intros [? ?].
Qed.

Lemma cacheKey_eq a b a' b' :
  occurs "|" a = false -> occurs "|" a' = false ->
  a +:+ String "|" b = a' +:+ String "|" b' -> a = a' ∧ b = b'.
Proof.
  revert a'. induction a as [|c a IH]; intros [|c' a'] Ha Ha' H; cbn in *;
    simplify_eq; repeat case_decide; simplify_eq; try done.
  destruct (IH a') as [-> ->]; done.
Qed.

(** X15. [cacheKey] keeps apart the albums whose artist has no [|] in the
    name: two such (artist, album) pairs with the same key are the same
    pair, so that what [Set] stores under one pair [Get] finds under that
    pair only. *)
Theorem cacheKey_separates (artist album artist' album' url : string)
    (c : gmap string string) :
  occurs "|" artist = false ->
  occurs "|" artist' = false ->
  (cacheKey artist album = cacheKey artist' album'
     -> artist = artist' ∧ album = album')
  ∧ <[cacheKey artist album := url]> c !! cacheKey artist' album'
    = if decide (artist = artist' ∧ album = album') then Some url
      else c !! cacheKey artist' album'.
Proof.
  intros Ha Ha'.
  assert (Hinj : cacheKey artist album = cacheKey artist' album'
                 -> artist = artist' ∧ album = album').
  { unfold cacheKey. apply cacheKey_eq; done. }
  split; [done|]. case_decide as Heq.
  - destruct Heq as [-> ->]. by rewrite lookup_insert_eq.
  - rewrite lookup_insert_ne; [done|]. intros H. by apply Heq, Hinj.
Qed.

Lemma cacheKey_separates_witness :
  (cacheKey "Artist" "Album" = cacheKey "Artist" "Other"
     -> "Artist" = "Artist" ∧ "Album" = "Other")
  ∧ <[cacheKey "Artist" "Album" := "cover"]> (∅ : gmap string string)
      !! cacheKey "Artist" "Other"
    = if decide ("Artist" = "Artist" ∧ "Album" = "Other") then Some "cover"
      else (∅ : gmap string string) !! cacheKey "Artist" "Other".
Proof.
  apply (cacheKey_separates "Artist" "Album" "Artist" "Other" "cover" ∅).
  - reflexivity.
  - reflexivity.
Defined.

Lemma string_app_assoc (a b c : string) :
  (a +:+ b) +:+ c = a +:+ (b +:+ c).
Proof.
  induction a as [|x a IH]; [done|].
  change (String x ((a +:+ b) +:+ c) = String x (a +:+ b +:+ c)).
  by rewrite IH.
Qed.

(** X16. [cacheKey] does not keep all albums apart: an artist with a [|]
    in the name shares its key, and so its cached cover, with another
    artist and album. *)
Theorem cacheKey_collides (a b c url : string) (m : gmap string string) :
  cacheKey (a +:+ "|" +:+ b) c = cacheKey a (b +:+ "|" +:+ c)
  ∧ <[cacheKey (a +:+ "|" +:+ b) c := url]> m !! cacheKey a (b +:+ "|" +:+ c)
    = Some url.
Proof.
  assert (H : cacheKey (a +:+ "|" +:+ b) c = cacheKey a (b +:+ "|" +:+ c)).
  { unfold cacheKey. by rewrite !string_app_assoc. }
  split; [done|]. rewrite H. by rewrite lookup_insert_eq.
Qed.

(** X17. What [UpdatePresence] puts on the wire: on a connected Bridge
    whose connection takes two writes, one command frame, sent while the
    mutex is held, that carries the activity built from the track with
    the cover that is in the cache afterwards (none when the search found
    nothing) and the end of the track; the client and the [connected] flag
    stay as they were. *)
Theorem UpdatePresence_sends (track : Track) (state : PlayerState)
    (m : Machine) (id : nat) (c : Conn) :
  mu (bridge m) = false ->
  connected (bridge m) = true ->
  logged (client m) = true ->
  conn (client m) = Some id ->
  conns m !! id = Some c ->
  can_write 2 c ->
  ∃ m',
    let url := default "" (cache (bridge m')
                             !! cacheKey (Artist track) (Album track)) in
    let payload :=
      command_payload m
        (Some (payload_of (presence track url (end_time (world m) track)))) in
    run (UpdatePresence track state) m
      = Some (tt, m', [EvLock; EvWrite id (header_of 1 payload) true;
                       EvWrite id payload true; EvUnlock])
    ∧ client m' = client m
    ∧ connected (bridge m') = true
    ∧ mu (bridge m') = false.
Proof.
  intros Hmu Hcon Hl Hid Hc Hw.
  unfold UpdatePresence, with_lock, UpdatePresence_body, mbind, Prog_bind.
  rewrite run_bind. cbn -[bind SetActivity artwork_of]. rewrite Hmu.
  cbn -[bind SetActivity artwork_of]. rewrite !run_bind.
  cbn -[bind SetActivity artwork_of]. rewrite Hcon.
  cbn -[bind SetActivity artwork_of]. rewrite run_bind, run_artwork_of.
  cbn -[bind SetActivity artwork_of cacheKey].
  set (key := cacheKey (Artist track) (Album track)).
  destruct (cache (bridge m) !! key) as [u|] eqn:Hk;
    [|destruct (fetch (world m) (Artist track) (Album track)) as [u|] eqn:Hf];
    cbn -[bind SetActivity artwork_of cacheKey];
    rewrite !run_bind; cbn -[bind SetActivity artwork_of cacheKey];
    rewrite !run_bind; rewrite run_SetActivity by done;
    (erewrite run_send_ok; [|exact Hid|exact Hc|exact Hw]);
    cbn -[header_of command_payload cacheKey]; rewrite ?Hmu;
    [destruct (decide (u = ""))|destruct (decide (u = ""))
    |rewrite decide_True by done];
    cbn -[header_of command_payload cacheKey];
    match goal with
    | |- ex (fun m' => Some (_, ?M, _) = @?R m' ∧ _) => exists M
    end;
    cbn -[header_of command_payload cacheKey]; fold key;
    rewrite ?Hk, ?lookup_insert_eq; done.
Qed.

Lemma UpdatePresence_sends_witness :
  ∃ m',
    let url := default "" (cache (bridge m')
                             !! cacheKey (Artist song) (Album song)) in
    let payload :=
      command_payload (receiving [])
        (Some (payload_of
                 (presence song url (end_time (world (receiving [])) song)))) in
    run (UpdatePresence song StatePlaying) (receiving [])
      = Some (tt, m', [EvLock; EvWrite 0 (header_of 1 payload) true;
                       EvWrite 0 payload true; EvUnlock])
    ∧ client m' = client (receiving [])
    ∧ connected (bridge m') = true
    ∧ mu (bridge m') = false.
Proof.
  apply (UpdatePresence_sends song StatePlaying (receiving []) 0 (peer [])).
  - reflexivity.
  - reflexivity.
  - reflexivity.
  - reflexivity.
  - reflexivity.
  - split; [reflexivity|exact I].
Defined.

Lemma by_artist_not_empty (artist : string) : "by " +:+ artist ≠ "".
Proof. done. Qed.

(** X18. The activity object [UpdatePresence] sends: type 2 (listening);
    [details] with the track's name unless the name is empty; [state]
    always (the text starts with [by] also for an empty artist); [assets]
    with the cover and the album, each unless empty; [timestamps] with the
    end alone, in milliseconds; no start and no buttons. *)
Theorem presence_document (track : Track) (url : string) (t : Time) :
  encode (presence track url t) =
  JObj ([("type", JNum 2)]
     ++ (if decide (Name track = "") then []
         else [("details", JStr (Name track))])
     ++ [("state", JStr ("by " +:+ Artist track));
         ("assets",
          JObj ((if decide (url = "") then [] else [("large_image", JStr url)])
             ++ (if decide (Album track = "") then []
                 else [("large_text", JStr (Album track))])));
         ("timestamps", JObj [("end", JNum (uint64 (UnixMilli t)))])]).
Proof.
  unfold encode, marshal_payloadActivity, payload_of, presence,
    marshal_payloadAssets, field_string_omitempty.
  cbn -[uint64 UnixMilli String.append].
  rewrite (decide_False (P := "by " +:+ Artist track = ""))
    by apply by_artist_not_empty.
  rewrite !app_nil_r. by repeat case_decide.
Qed.

(** X19. What [Connect] does on a Bridge that is not connected: it logs
    the client in while it holds the mutex; on success [connected] is set
    and the client holds an open connection; on failure [connected] stays
    false, the client stays logged out, and the error is the client's,
    wrapped once more.  With no listener the message says so twice and
    nothing has changed. *)
Theorem Connect_outcomes (m : Machine) :
  mu (bridge m) = false ->
  connected (bridge m) = false ->
  logged (client m) = false ->
  ∃ r m' inner,
    run Connect m = Some (r, m', EvLock :: inner ++ [EvUnlock])
    ∧ mu (bridge m') = false
    ∧ cache (bridge m') = cache (bridge m)
    ∧ match r with
      | None =>
          connected (bridge m') = true
          ∧ logged (client m') = true
          ∧ holds_open_endpoint m'
      | Some e =>
          connected (bridge m') = false
          ∧ logged (client m') = false
          ∧ ∃ e', e = ErrWrap "failed to connect to Discord" e'
      end
    ∧ (Forall (fun p => sockets (world m) !! p = None) (candidates (world m)) ->
       r = Some (ErrWrap "failed to connect to Discord"
                   (ErrWrap "failed to connect to Discord" ErrSocketNotFound))
       ∧ inner = dial_failed <$> candidates (world m)
       ∧ m' = m).
Proof.
  intros Hmu Hcon Hl.
  unfold Connect, with_lock, Connect_body, mbind, Prog_bind.
  rewrite run_bind. cbn -[bind Login candidates]. rewrite Hmu. cbn -[bind Login candidates].
  rewrite !run_bind. cbn -[bind Login candidates]. rewrite Hcon. cbn -[bind Login candidates].
  rewrite run_bind.
  set (ml := set_bridge (with_mu true (bridge m)) m).
  assert (Hll : logged (client ml) = false) by done.
  assert (Hm : set_bridge (with_mu false (bridge ml)) ml = m).
  { clear -Hmu. destruct m as [w rp cs cl [ca co mu0]]. cbn in *. by subst. }
  destruct (Login_returns ml) as (e & m1 & inner & H & Hs1 & Hb & He & Hne).
  { intros Hx. by rewrite Hll in Hx. }
  assert (Hnl : Forall (fun p => sockets (world m) !! p = None)
                  (candidates (world m)) ->
                e = Some (ErrWrap "failed to connect to Discord" ErrSocketNotFound)
                ∧ inner = dial_failed <$> candidates (world m) ∧ m1 = ml).
  { intros Hall. rewrite run_Login in H by done.
    change (world ml) with (world m) in H.
    rewrite probe_all_refuse in H by done. by injection H as <- <- <-. }
  rewrite H. destruct e as [e|]; cbn -[candidates].
  - rewrite Hb. cbn -[candidates]. rewrite ?app_nil_r.
    do 3 eexists. split; [done|].
    cbn -[candidates].
    split; [done|]. split; [done|]. split.
    + split; [by rewrite Hcon|]. split; [by rewrite Hne|eauto].
    + intros Hall. destruct (Hnl Hall) as (He' & -> & ->).
      injection He' as ->. split; [done|]. split; [done|]. exact Hm.
  - rewrite Hb. cbn -[candidates]. rewrite ?app_nil_r.
    do 3 eexists. split; [done|].
    cbn -[candidates]. split; [done|]. rewrite ?Hb. split; [done|]. split.
    + split; [done|]. split; [by apply He|].
      apply Login_success in H as (_ & (id & c & ? & ? & ?) & _); [|done].
      by exists id, c.
    + intros Hall. by destruct (Hnl Hall) as (? & _).
Qed.

Lemma Connect_outcomes_witness :
  ∃ r m' inner,
    run Connect (boot no_discord) = Some (r, m', EvLock :: inner ++ [EvUnlock])
    ∧ mu (bridge m') = false
    ∧ cache (bridge m') = cache (bridge (boot no_discord))
    ∧ match r with
      | None =>
          connected (bridge m') = true
          ∧ logged (client m') = true
          ∧ holds_open_endpoint m'
      | Some e =>
          connected (bridge m') = false
          ∧ logged (client m') = false
          ∧ ∃ e', e = ErrWrap "failed to connect to Discord" e'
      end
    ∧ (Forall (fun p => sockets (world (boot no_discord)) !! p = None)
         (candidates (world (boot no_discord))) ->
       r = Some (ErrWrap "failed to connect to Discord"
                   (ErrWrap "failed to connect to Discord" ErrSocketNotFound))
       ∧ inner = dial_failed <$> candidates (world (boot no_discord))
       ∧ m' = boot no_discord).
Proof.
  apply (Connect_outcomes (boot no_discord)).
  - reflexivity.
  - reflexivity.
  - reflexivity.
Defined.






(** ** Strings *)

Lemma string_length_app (a b : string) :
  String.length (a +:+ b) = (String.length a + String.length b)%nat.
Proof.
  induction a as [|x a IH]; [done|].
  change (S (String.length (a +:+ b)) = S (String.length a + String.length b)).
  by rewrite IH.
Qed.

Lemma string_app_cons (x : ascii) (a b : string) :
  String x a +:+ b = String x (a +:+ b).
Proof. done. Qed.

Lemma string_app_nil (b : string) : "" +:+ b = b.
Proof. done. Qed.

Lemma string_app_empty_r (a : string) : a +:+ "" = a.
Proof.
  induction a as [|x a IH]; [done|]. rewrite string_app_cons. by rewrite IH.
Qed.

Lemma HasPrefix_app (p s : string) : HasPrefix (p +:+ s) p = true.
Proof.
  induction p as [|x p IH]; [done|].
  rewrite string_app_cons. cbn. by rewrite decide_True.
Qed.

Lemma HasPrefix_slice_to (n : nat) (s p : string) :
  HasPrefix (slice_to n s) p = true -> HasPrefix s p = true.
Proof.
  revert n s. induction p as [|x p IH]; intros n s H; [done|].
  destruct n as [|n], s as [|y s]; cbn in *; try done.
  case_decide; [|done]. by eapply IH.
Qed.

Lemma slice_to_app (a b : string) : slice_to (String.length a) (a +:+ b) = a.
Proof.
  induction a as [|x a IH]; [by destruct b|].
  rewrite string_app_cons. cbn. by rewrite IH.
Qed.

Lemma slice_from_app (a b : string) (n : nat) :
  slice_from (String.length a + n) (a +:+ b) = slice_from n b.
Proof.
  induction a as [|x a IH]; [done|]. rewrite string_app_cons. by cbn.
Qed.

Lemma slice_to_from (n : nat) (s : string) :
  slice_to n s +:+ slice_from n s = s.
Proof.
  revert s. induction n as [|n IH]; intros [|x s]; try done.
  cbn [slice_to slice_from]. rewrite string_app_cons. by rewrite IH.
Qed.

Lemma Index_slice_to_None (n : nat) (s sub : string) :
  Index s sub = None -> Index (slice_to n s) sub = None.
Proof.
  revert n. induction s as [|x s IH]; intros n H.
  - by destruct n.
  - cbn [Index] in H.
    destruct (HasPrefix (String x s) sub) eqn:Hp; [done|].
    destruct (Index s sub) as [i|] eqn:Hi; [done|].
    destruct n as [|n].
    + cbn [slice_to Index]. destruct sub; [done|]. done.
    + cbn [slice_to Index].
      destruct (HasPrefix (String x (slice_to n s)) sub) eqn:Hp'.
      { apply (HasPrefix_slice_to (S n) (String x s)) in Hp'. congruence. }
      by rewrite IH.
Qed.

Lemma Index_cut (s sub : string) (i : nat) :
  sub ≠ "" -> Index s sub = Some i -> Index (slice_to i s) sub = None.
Proof.
  intros Hsub. revert i. induction s as [|x s IH]; intros i H.
  - by destruct sub, i.
  - cbn [Index] in H.
    destruct (HasPrefix (String x s) sub) eqn:Hp.
    { simplify_eq. by destruct sub. }
    destruct (Index s sub) as [j|] eqn:Hj; [|done].
    cbn in H. simplify_eq. cbn [slice_to Index].
    destruct (HasPrefix (String x (slice_to j s)) sub) eqn:Hp'.
    { apply (HasPrefix_slice_to (S j) (String x s)) in Hp'. congruence. }
    by rewrite IH.
Qed.

Lemma Index_here (s sub : string) (i : nat) :
  Index s sub = Some i -> HasPrefix (slice_from i s) sub = true.
Proof.
  revert i. induction s as [|x s IH]; intros i H; cbn [Index] in H.
  - destruct (HasPrefix "" sub) eqn:Hp; by simplify_eq.
  - destruct (HasPrefix (String x s) sub) eqn:Hp; [by simplify_eq|].
    destruct (Index s sub) as [j|] eqn:Hj; [|done].
    cbn in H. simplify_eq. cbn [slice_from]. by apply IH.
Qed.

Lemma no_bar_HasPrefix (x : ascii) (s sep : string) :
  x ≠ "|"%char -> HasPrefix (String x s) (String "|" sep) = false.
Proof. intros H. cbn. by rewrite decide_False by congruence. Qed.

Lemma Index_no_bar (p : string) :
  occurs "|" p = false -> Index p "|||" = None.
Proof.
  induction p as [|x p IH]; intros H; [done|].
  cbn in H. case_decide; [done|]. cbn [Index].
  rewrite no_bar_HasPrefix by done. by rewrite IH.
Qed.

Lemma Index_part (p rest : string) :
  occurs "|" p = false ->
  Index (p +:+ "|||" +:+ rest) "|||" = Some (String.length p).
Proof.
  induction p as [|x p IH]; intros H.
  - rewrite string_app_nil. destruct rest; cbn; done.
  - cbn in H. case_decide; [done|]. rewrite string_app_cons. cbn [Index].
    rewrite no_bar_HasPrefix by done. by rewrite IH.
Qed.

Lemma genSplit_last (fuel : nat) (p : string) :
  occurs "|" p = false -> genSplit fuel p "|||" = [p].
Proof. intros H. destruct fuel; [done|]. cbn. by rewrite Index_no_bar. Qed.

Lemma genSplit_part (fuel : nat) (p rest : string) :
  occurs "|" p = false ->
  genSplit (S fuel) (p +:+ "|||" +:+ rest) "|||"
  = p :: genSplit fuel rest "|||".
Proof.
  intros H. cbn [genSplit]. rewrite Index_part by done.
  rewrite slice_to_app, slice_from_app. done.
Qed.

(** ** The player *)




(** X22. A track whose name holds the separator cannot be read:
    [GetCurrentTrack] finds six parts and returns the format error with
    the whole output, whatever the numbers are. *)
Theorem GetCurrentTrack_separator_in_name
    (runAppleScript : Script -> option string)
    (ParseFloat : string -> option Z)
    (name1 name2 artist album duration position : string) :
  occurs "|" name1 = false ->
  occurs "|" name2 = false ->
  occurs "|" artist = false ->
  occurs "|" album = false ->
  occurs "|" duration = false ->
  occurs "|" position = false ->
  let result :=
    (name1 +:+ "|||" +:+ name2) +:+ "|||" +:+ artist +:+ "|||" +:+ album
    +:+ "|||" +:+ duration +:+ "|||" +:+ position in
  runAppleScript CurrentTrackScript = Some result ->
  GetCurrentTrack runAppleScript ParseFloat = inr (ErrFormat result).
Proof.
  intros H0 H0' H1 H2 H3 H4 result Hr. unfold GetCurrentTrack.
  rewrite Hr. unfold Split.
  assert (Hn : ∃ f, String.length result = S (S (S (S (S f))))).
  { unfold result. rewrite !string_length_app. cbn [String.length].
    match goal with |- ∃ f, ?n = _ => exists (n - 5)%nat end. lia. }
  destruct Hn as [f ->]. unfold result. rewrite !string_app_assoc.
  rewrite !genSplit_part by done. by rewrite genSplit_last.
Qed.

Lemma GetCurrentTrack_separator_in_name_witness :
  GetCurrentTrack playing_separator parse_mock
    = inr (ErrFormat "So|||ng|||Artist|||Album|||215.5|||12.25").
Proof.
  apply (GetCurrentTrack_separator_in_name playing_separator parse_mock
           "So" "ng" "Artist" "Album" "215.5" "12.25").
  - reflexivity.
  - reflexivity.
  - reflexivity.
  - reflexivity.
  - reflexivity.
  - reflexivity.
  - reflexivity.
Defined.

(** X23. What [GetPlayerState] answers: playing or paused only when the
    Music process runs and the player says exactly that; an error only
    together with [StateNotRunning], when one of the two scripts failed;
    and a player in any other state (stopped, say) reads as not running. *)
Theorem GetPlayerState_cases (runAppleScript : Script -> option string) :
  match GetPlayerState runAppleScript with
  | (StatePlaying, e) =>
      e = None
      ∧ runAppleScript ProcessesScript = Some "true"
      ∧ runAppleScript PlayerStateScript = Some "playing"
  | (StatePaused, e) =>
      e = None
      ∧ runAppleScript ProcessesScript = Some "true"
      ∧ runAppleScript PlayerStateScript = Some "paused"
  | (StateNotRunning, Some e) =>
      e = ErrScript
      ∧ (runAppleScript ProcessesScript = None
         ∨ runAppleScript ProcessesScript = Some "true"
           ∧ runAppleScript PlayerStateScript = None)
  | (StateNotRunning, None) =>
      ∃ r, runAppleScript ProcessesScript = Some r
        ∧ (r ≠ "true"
           ∨ ∃ s, runAppleScript PlayerStateScript = Some s
               ∧ s ≠ "playing" ∧ s ≠ "paused")
  end.
Proof.
  unfold GetPlayerState.
  destruct (runAppleScript ProcessesScript) as [r|]; [|by auto].
  case_decide as Hr; [by eauto|].
  subst r.
  destruct (runAppleScript PlayerStateScript) as [s|]; [|by auto].
  repeat case_decide; subst; eauto 10.
Qed.

(** ** The cover search *)

Lemma slice_from_add (i n : nat) (s : string) :
  slice_from (i + n) s = slice_from n (slice_from i s).
Proof.
  revert s. induction i as [|i IH]; intros s; [done|].
  destruct s as [|x s]; [by destruct n|]. cbn [Nat.add slice_from]. apply IH.
Qed.

Lemma HasPrefix_split (s p : string) :
  HasPrefix s p = true -> s = p +:+ slice_from (String.length p) s.
Proof.
  revert s. induction p as [|x p IH]; intros s H; [done|].
  destruct s as [|y s]; [done|]. cbn in H. case_decide; [|done]. subst.
  cbn [String.length slice_from]. rewrite string_app_cons. f_equal. by apply IH.
Qed.

Lemma Index_split (s sub : string) (i : nat) :
  Index s sub = Some i ->
  s = slice_to i s +:+ sub +:+ slice_from (i + String.length sub) s.
Proof.
  intros H. rewrite slice_from_add.
  rewrite <- (HasPrefix_split (slice_from i s) sub) by by apply Index_here.
  by rewrite slice_to_from.
Qed.

(** X24. The album name [FetchArtworkURL] searches with: the album cut
    before its first [ - Single] and then before its first [ (From].  It
    is a prefix of the album, holds neither marker, and cleaning it again
    changes nothing. *)
Theorem cleanAlbum_cut (album : string) :
  Index (cleanAlbum album) " - Single" = None
  ∧ Index (cleanAlbum album) " (From" = None
  ∧ (∃ rest, album = cleanAlbum album +:+ rest)
  ∧ cleanAlbum (cleanAlbum album) = cleanAlbum album.
Proof.
  assert (H : Index (cleanAlbum album) " - Single" = None
              ∧ Index (cleanAlbum album) " (From" = None
              ∧ ∃ rest, album = cleanAlbum album +:+ rest).
  { unfold cleanAlbum. cbv zeta.
    destruct (Index album " - Single") as [i|] eqn:Hi.
    - pose proof (Index_cut album " - Single" i ltac:(done) Hi) as H1.
      destruct (Index (slice_to i album) " (From") as [j|] eqn:Hj.
      + split; [by apply Index_slice_to_None|].
        split; [by eapply Index_cut|].
        exists (slice_from j (slice_to i album) +:+ slice_from i album).
        by rewrite <- string_app_assoc, !slice_to_from.
      + split; [done|]. split; [done|].
        exists (slice_from i album). by rewrite slice_to_from.
    - destruct (Index album " (From") as [j|] eqn:Hj.
      + split; [by apply Index_slice_to_None|].
        split; [by eapply Index_cut|].
        exists (slice_from j album). by rewrite slice_to_from.
      + split; [done|]. split; [done|]. exists "".
        by rewrite string_app_empty_r. }
  destruct H as (H1 & H2 & H3). do 3 (split; [done|]).
  unfold cleanAlbum at 1. cbv zeta. by rewrite H1, H2.
Qed.

(** X25. The order of the searches in [FetchArtworkURL]: the artist with
    the cleaned album, the cleaned album, the artist, and the album as it
    is when cleaning changed it.  The answer is the URL of the first search
    that succeeds, and the error with the artist and the album when none
    does; there are at most four searches. *)
Theorem FetchArtworkURL_strategies (httpGet : string -> option Response)
    (artist album : string) :
  let clean := cleanAlbum album in
  let queries :=
    [artist +:+ " " +:+ clean; clean; artist]
    ++ (if decide (clean ≠ album) then [album] else []) in
  let found q :=
    match ITunes.searchITunes httpGet q with
    | inl url => Some url
    | inr _ => None
    end in
  ITunes.FetchArtworkURL httpGet artist album
    = from_option inl (inr (ErrNoArtwork artist album))
        (head (omap found queries))
  ∧ (length queries <= 4)%nat.
Proof.
  intros clean queries found. unfold ITunes.FetchArtworkURL.
  fold clean. unfold queries, found.
  split; [|case_decide; cbn; lia].
  cbn [app omap list_omap].
  destruct (ITunes.searchITunes httpGet (artist +:+ " " +:+ clean)); [done|].
  destruct (ITunes.searchITunes httpGet clean); [done|].
  destruct (ITunes.searchITunes httpGet artist); [done|].
  case_decide; [|done]. cbn.
  by destruct (ITunes.searchITunes httpGet album).
Qed.

(** X26. What [searchITunes] takes for an answer: a response with status
    200 that decoded, with a result count that is not zero and a first
    result.  The URL is that result's with its first [100x100bb] replaced
    by [600x600bb], and the result's own when it has none. *)
Theorem searchITunes_answer (httpGet : string -> option Response)
    (query url : string) :
  ITunes.searchITunes httpGet query = inl url <->
  ∃ resp result first rest,
    httpGet query = Some resp
    ∧ StatusCode resp = 200
    ∧ Body resp = Some result
    ∧ ResultCount result ≠ 0
    ∧ Results result = first :: rest
    ∧ match Index first "100x100bb" with
      | None => url = first
      | Some i =>
          first = slice_to i first +:+ "100x100bb" +:+ slice_from (i + 9) first
          ∧ url = slice_to i first +:+ "600x600bb" +:+ slice_from (i + 9) first
          ∧ Index (slice_to i first) "100x100bb" = None
      end.
Proof.
  unfold ITunes.searchITunes. split.
  - destruct (httpGet query) as [resp|]; [|done].
    case_decide as Hs; [done|].
    destruct (Body resp) as [result|] eqn:Hb; [|done].
    destruct (bool_decide (ResultCount result = 0)) eqn:Hc; [done|].
    apply bool_decide_eq_false in Hc.
    destruct (Results result) as [|first rest] eqn:Hr; [done|].
    cbn [length bool_decide orb lookup list_lookup default].
    rewrite bool_decide_false by done. cbn. intros [= <-].
    exists resp, result, first, rest. do 5 (split; [done|]).
    unfold Replace1.
    destruct (Index first "100x100bb") as [i|] eqn:Hi; [|done].
    split; [by apply Index_split in Hi|]. split; [done|].
    by eapply Index_cut.
  - intros (resp & result & first & rest & -> & Hs & -> & Hc & Hr & Hu).
    rewrite decide_False by (by intros []).
    rewrite Hr, (bool_decide_false _ Hc). cbn.
    rewrite bool_decide_false by done. cbn. f_equal. unfold Replace1.
    destruct (Index first "100x100bb") as [i|]; [|done].
    by destruct Hu as (_ & -> & _).
Qed.

Lemma searchITunes_answer_witness :
  ITunes.searchITunes one_cover "Artist Album"
    = inl "https://example.org/600x600bb.jpg".
Proof.
  apply (proj2 (searchITunes_answer one_cover "Artist Album"
                  "https://example.org/600x600bb.jpg")).
  exists {| StatusCode := 200;
            Body := Some {| ResultCount := 1;
                            Results := ["https://example.org/100x100bb.jpg"] |} |},
    {| ResultCount := 1; Results := ["https://example.org/100x100bb.jpg"] |},
    "https://example.org/100x100bb.jpg", [].
  split; [reflexivity|]. split; [reflexivity|]. split; [reflexivity|].
  split; [discriminate|]. split; [reflexivity|].
  vm_compute. split; [reflexivity|]. split; reflexivity.
Defined.

(** ** The polling loop *)

Lemma relocked (m : Machine) :
  mu (bridge m) = false ->
  set_bridge (with_mu false (bridge (set_bridge (with_mu true (bridge m)) m)))
    (set_bridge (with_mu true (bridge m)) m) = m.
Proof. destruct m as [w rp cs cl [ca co mu0]]. cbn. by intros ->. Qed.


Lemma Connect_returns (m : Machine) :
  mu (bridge m) = false ->
  bridge_ok m ->
  ∃ r m' inner,
    run Connect m = Some (r, m', EvLock :: inner ++ [EvUnlock])
    ∧ bridge_ok m'
    ∧ mu (bridge m') = false
    ∧ connected (bridge m')
      = match r with None => true | Some _ => connected (bridge m) end
    ∧ (connected (bridge m) = true -> r = None ∧ m' = m ∧ inner = [])
    ∧ (connected (bridge m) = false ->
       Forall (fun p => sockets (world m) !! p = None) (candidates (world m)) ->
       r ≠ None ∧ m' = m ∧ inner = dial_failed <$> candidates (world m)).
Proof.
  intros Hmu Hok. pose proof Hok as [Hcl Hs].
  unfold Connect, with_lock, Connect_body, mbind, Prog_bind.
  rewrite run_bind. cbn -[bind Login candidates]. rewrite Hmu.
  cbn -[bind Login candidates].
  rewrite !run_bind. cbn -[bind Login candidates].
  set (ml := set_bridge (with_mu true (bridge m)) m).
  assert (Hm : set_bridge (with_mu false (bridge ml)) ml = m)
    by by apply relocked.
  destruct (connected (bridge m)) eqn:Hcon; cbn -[bind Login candidates].
  { exists None, m, []. cbn -[candidates]. rewrite Hmu.
    change (set_bridge (with_mu false (with_mu true (bridge m))) ml)
      with (set_bridge (with_mu false (bridge ml)) ml).
    rewrite Hm. by split_and!. }
  rewrite run_bind.
  assert (Hll : logged (client ml) = false) by (symmetry; exact Hcl).
  destruct (Login_returns ml) as (e & m1 & inner & H & Hs1 & Hb & He & Hne).
  { intros Hx. by rewrite Hll in Hx. }
  assert (Hnl : Forall (fun p => sockets (world m) !! p = None)
                  (candidates (world m)) ->
                e = Some (ErrWrap "failed to connect to Discord" ErrSocketNotFound)
                ∧ inner = dial_failed <$> candidates (world m) ∧ m1 = ml).
  { intros Hall. rewrite run_Login in H by done.
    change (world ml) with (world m) in H.
    rewrite probe_all_refuse in H by done. by injection H as <- <- <-. }
  rewrite H. destruct e as [e|]; cbn -[candidates].
  - rewrite Hb. cbn -[candidates]. rewrite ?app_nil_r.
    do 3 eexists. split; [done|]. cbn -[candidates].
    split.
    { split; [cbn; by rewrite Hcon, Hne, Hll|exact Hs1]. }
    split; [done|]. split; [done|]. split; [done|].
    intros _ Hall. destruct (Hnl Hall) as (_ & -> & ->).
    split; [done|]. split; [exact Hm|done].
  - rewrite Hb. cbn -[candidates]. rewrite ?app_nil_r.
    do 3 eexists. split; [done|]. cbn -[candidates].
    split.
    { split; [cbn; by rewrite He|exact Hs1]. }
    split; [done|]. split; [done|]. split; [done|].
    intros _ Hall. by destruct (Hnl Hall) as (? & _).
Qed.



Lemma run_pollAndUpdate (runAppleScript : Script -> option string)
    (ParseFloat : string -> option Z) (b : LastSeen) (m : Machine) :
  run (pollAndUpdate runAppleScript ParseFloat b) m =
  match (if connected (bridge m) then Some (None, m, []) else run Connect m) with
  | None => None
  | Some (Some _, m0, evs0) => Some (b, m0, evs0)
  | Some (None, m0, evs0) =>
      match GetPlayerState runAppleScript with
      | (_, Some _) => Some (b, m0, evs0)
      | (StateNotRunning, None) =>
          if bool_decide (lastState b ≠ StateNotRunning) then
            match run ClearPresence m0 with
            | None => None
            | Some (_, m1, evs1) =>
                Some ({| lastTrack := None; lastState := StateNotRunning |},
                      m1, evs0 ++ evs1)
            end
          else Some (b, m0, evs0)
      | (StatePaused, None) =>
          if bool_decide (lastState b ≠ StatePaused) then
            match run ClearPresence m0 with
            | None => None
            | Some (_, m1, evs1) =>
                Some ({| lastTrack := lastTrack b; lastState := StatePaused |},
                      m1, evs0 ++ evs1)
            end
          else Some (b, m0, evs0)
      | (StatePlaying, None) =>
          match GetCurrentTrack runAppleScript ParseFloat with
          | inr _ => Some (b, m0, evs0)
          | inl track =>
              if ShouldUpdate b track StatePlaying then
                match run (UpdatePresence track StatePlaying) m0 with
                | None => None
                | Some (_, m1, evs1) =>
                    Some ({| lastTrack := Some track;
                             lastState := StatePlaying |}, m1, evs0 ++ evs1)
                end
              else Some (b, m0, evs0)
          end
      end
  end.
Proof.
  unfold pollAndUpdate, mbind, Prog_bind.
  rewrite run_bind. cbn -[bind Connect ClearPresence UpdatePresence].
  rewrite run_bind.
  assert (Hc : run (if negb (connected (bridge m)) then Connect else Ret None) m
               = if connected (bridge m) then Some (None, m, [])
                 else run Connect m) by by destruct (connected (bridge m)).
  rewrite Hc. clear Hc.
  destruct (if connected (bridge m) then _ else _) as [[[[e|] m0] evs0]|];
    [by cbn; rewrite app_nil_r| |done].
  destruct (GetPlayerState runAppleScript) as [[| |] [e|]];
    cbn -[bind Connect ClearPresence UpdatePresence]; rewrite ?app_nil_r;
    try done.
  - case_bool_decide; cbn -[bind Connect ClearPresence UpdatePresence];
      [|by rewrite ?run_bind; cbn; rewrite ?app_nil_r].
    rewrite run_bind. cbn -[bind Connect ClearPresence UpdatePresence].
    rewrite run_bind.
    destruct (run ClearPresence m0) as [[[[] m1] evs1]|]; cbn; [|done].
    by rewrite app_nil_r.
  - case_bool_decide; cbn -[bind Connect ClearPresence UpdatePresence];
      [|by rewrite ?run_bind; cbn; rewrite ?app_nil_r].
    rewrite run_bind. cbn -[bind Connect ClearPresence UpdatePresence].
    rewrite run_bind.
    destruct (run ClearPresence m0) as [[[[] m1] evs1]|]; cbn; [|done].
    by rewrite app_nil_r.
  - destruct (GetCurrentTrack runAppleScript ParseFloat) as [track|e];
      cbn -[bind Connect ClearPresence UpdatePresence];
      [|by rewrite ?run_bind; cbn; rewrite ?app_nil_r].
    destruct (ShouldUpdate b track StatePlaying);
      cbn -[bind Connect ClearPresence UpdatePresence];
      [|by rewrite ?run_bind; cbn; rewrite ?app_nil_r].
    rewrite run_bind.
    destruct (run (UpdatePresence track StatePlaying) m0) as [[[[] m1] evs1]|];
      cbn; [|done].
    by rewrite app_nil_r.
Qed.





Lemma Equals_spec (t u : Track) :
  Equals t u = true <->
  Name t = Name u ∧ Artist t = Artist u ∧ Album t = Album u.
Proof.
  unfold Equals. rewrite !andb_true_iff, !bool_decide_eq_true. tauto.
Qed.

Lemma ShouldUpdate_false (b : LastSeen) (track : Track) (state : PlayerState) :
  ShouldUpdate b track state = false <->
  lastState b = state
  ∧ ∃ last, lastTrack b = Some last ∧ Equals track last = true.
Proof.
  unfold ShouldUpdate. case_bool_decide as Hs.
  - split; [done|]. by intros [<- _].
  - destruct (lastTrack b) as [last|].
    + destruct (Equals track last) eqn:He; cbn.
      * split; [intros _; split; [done|by exists last]|done].
      * split; [done|]. intros (_ & ? & [= <-] & ?). congruence.
    + split; [done|]. by intros (_ & ? & ? & _).
Qed.

(** X28. A player that has not changed causes no traffic: after a poll
    that went through on a connected Bridge, a second poll that finds the
    same state, and when playing a track with the same name, artist and
    album (the position may differ), calls nothing, takes no lock, writes
    nothing, and leaves the last seen track and state as they are.  This
    holds also when the update of the first poll failed to be written: it
    is not tried again. *)
Theorem poll_unchanged_player_is_quiet
    (runAppleScript runAppleScript' : Script -> option string)
    (ParseFloat : string -> option Z)
    (b b1 : LastSeen) (m m1 : Machine) (evs1 : list Event)
    (state : PlayerState) :
  mu (bridge m) = false ->
  bridge_ok m ->
  run (pollAndUpdate runAppleScript ParseFloat b) m = Some (b1, m1, evs1) ->
  connected (bridge m1) = true ->
  GetPlayerState runAppleScript = (state, None) ->
  GetPlayerState runAppleScript' = (state, None) ->
  (state = StatePlaying ->
   ∃ t t', GetCurrentTrack runAppleScript ParseFloat = inl t
     ∧ GetCurrentTrack runAppleScript' ParseFloat = inl t'
     ∧ Equals t' t = true) ->
  run (pollAndUpdate runAppleScript' ParseFloat b1) m1 = Some (b1, m1, []).
Proof.
  intros Hmu Hok H Hcon1 Hst Hst' Htr.
  rewrite run_pollAndUpdate in H. rewrite run_pollAndUpdate, Hcon1, Hst'.
  assert (Hb1 : lastState b1 = state
                ∧ (state = StatePlaying ->
                   ∃ t last, GetCurrentTrack runAppleScript ParseFloat = inl t
                     ∧ lastTrack b1 = Some last ∧ Equals t last = true)).
  { assert (H0 : ∃ m0 evs0,
              (if connected (bridge m) then Some (None, m, [])
               else run Connect m) = Some (None, m0, evs0)).
    { destruct (connected (bridge m)) eqn:Hcon; [by eauto|].
      destruct (Connect_returns m Hmu Hok)
        as (r & m' & inner & Hr & _ & _ & Hc' & _).
      rewrite Hr in H |- *. destruct r as [e|]; [|by eauto].
      simplify_eq. congruence. }
    destruct H0 as (m0 & evs0 & H0). rewrite H0, Hst in H.
    destruct state.
    - split; [|done]. case_bool_decide as Hs.
      + destruct (run ClearPresence m0) as [[[[] ?] ?]|]; by simplify_eq.
      + by simplify_eq.
    - split; [|done]. case_bool_decide as Hs.
      + destruct (run ClearPresence m0) as [[[[] ?] ?]|]; by simplify_eq.
      + by simplify_eq.
    - destruct (Htr eq_refl) as (t & t' & Ht & _ & _). rewrite Ht in H.
      destruct (ShouldUpdate b t StatePlaying) eqn:Hsu.
      + destruct (run (UpdatePresence t StatePlaying) m0) as [[[[] ?] ?]|];
          simplify_eq.
        split; [done|]. intros _. exists t, t. split; [done|]. split; [done|].
        by apply Equals_spec.
      + simplify_eq. apply ShouldUpdate_false in Hsu as (? & last & ? & ?).
        split; [done|]. intros _. by exists t, last. }
  destruct Hb1 as [Hls Hlt]. destruct state.
  - by rewrite bool_decide_false by (by intros []).
  - by rewrite bool_decide_false by (by intros []).
  - destruct (Htr eq_refl) as (t & t' & Ht & -> & He).
    destruct (Hlt eq_refl) as (t0 & last & Ht0 & Hl & He0).
    rewrite Ht in Ht0. simplify_eq.
    assert (Hsu : ShouldUpdate b1 t' StatePlaying = false).
    { apply ShouldUpdate_false. split; [done|]. exists last. split; [done|].
      apply Equals_spec in He as (? & ? & ?).
      apply Equals_spec in He0 as (? & ? & ?).
      apply Equals_spec. repeat split; congruence. }
    by rewrite Hsu.
Qed.

Lemma poll_unchanged_player_is_quiet_witness :
  ∃ b1 m1 evs1,
    run (pollAndUpdate playing_song parse_mock NewLastSeen) (receiving [])
      = Some (b1, m1, evs1)
    ∧ run (pollAndUpdate playing_song parse_mock b1) m1 = Some (b1, m1, []).
Proof.
  eexists _, _, _. split; [vm_compute; reflexivity|].
  eapply (poll_unchanged_player_is_quiet playing_song playing_song parse_mock
           NewLastSeen _ (receiving []) _ _ StatePlaying).
  - reflexivity.
  - split; [reflexivity|]. intros _. exists 0%nat. reflexivity.
  - vm_compute. reflexivity.
  - reflexivity.
  - reflexivity.
  - reflexivity.
  - intros _. exists song_playing, song_playing.
    split; [vm_compute; reflexivity|]. split; vm_compute; reflexivity.
Defined.




(** X30. Without Discord a poll does not ask the player: on a Bridge that
    is not connected, with no listener at any candidate path, the poll
    tries each path once while it holds the mutex and returns; the last
    seen track and state and the machine are as before, whatever the
    scripts would answer. *)
Theorem poll_without_discord (runAppleScript : Script -> option string)
    (ParseFloat : string -> option Z) (b : LastSeen) (m : Machine) :
  mu (bridge m) = false ->
  bridge_ok m ->
  connected (bridge m) = false ->
  Forall (fun p => sockets (world m) !! p = None) (candidates (world m)) ->
  run (pollAndUpdate runAppleScript ParseFloat b) m
    = Some (b, m, EvLock :: (dial_failed <$> candidates (world m))
                    ++ [EvUnlock]).
Proof.
  intros Hmu Hok Hcon Hall. rewrite run_pollAndUpdate, Hcon.
  destruct (Connect_returns m Hmu Hok) as (r & m' & inner & H & _ & _ & _ & _ & Hn).
  destruct (Hn Hcon Hall) as (Hr & -> & ->). rewrite H.
  by destruct r.
Qed.

Lemma poll_without_discord_witness :
  run (pollAndUpdate playing_song parse_mock NewLastSeen) (boot no_discord)
    = Some (NewLastSeen, boot no_discord,
            EvLock :: (dial_failed <$> candidates (world (boot no_discord)))
              ++ [EvUnlock]).
Proof.
  apply (poll_without_discord playing_song parse_mock NewLastSeen
           (boot no_discord)).
  - reflexivity.
  - split; [reflexivity|]. intros H. vm_compute in H. discriminate H.
  - reflexivity.
  - vm_compute. repeat constructor.
Defined.
